(** * Job Application Copilot: the matching and scoring engine of [agent.py]

    A shallow embedding of the pure core of [src/agent.py] (normalisation,
    tokenisation, keyword-bank matching, n-gram phrase extraction with the
    diversity rerank, phrase coverage, red-flag detection, bullet discovery
    and the bullet rewrite) and of its paste-mode input and input
    statistics, followed by the properties established about them.

    Modelling conventions.
    - A Python [str] is a [string]; a character is a code point below 256
      (the Latin-1 range), classified as CPython classifies it: [isspace] is
      [str.isspace] and the regex class [\s], [is_word] is the regex class
      [\w], [lower_char] is [str.lower] on one character.  Texts with code
      points above 255 are outside the model.
    - [Optional[str]] is [option string].
    - Python [int] parameters ([n], [top_k], [max_per_token]) are [Z]; lengths
      and dictionary counters, which never go below zero, are [nat].
    - [set] is stdpp's [gset] and the counters of the rerank are a [gmap]; the
      frequency dictionary, whose items are later enumerated, is an
      association list in insertion order, as a Python [dict] keeps it.
    - A float ratio [a / b] of two list lengths is the exact rational [a # b]. *)

From Stdlib Require Import ZArith QArith Ascii String Bool Lia.
From stdpp Require Import base list strings gmap sorting.

Local Open Scope string_scope.
Local Open Scope list_scope.
Local Open Scope nat_scope.

(** ** Characters *)

Definition code (c : ascii) : nat := nat_of_ascii c.

(** [str.isspace] / regex [\s] on code points below 256. *)
Definition isspace (c : ascii) : bool :=
  let n := code c in
  ((9 <=? n) && (n <=? 13)) || ((28 <=? n) && (n <=? 32)) ||
  (n =? 133) || (n =? 160).

(** [str.lower] on one code point below 256. *)
Definition lower_char (c : ascii) : ascii :=
  let n := code c in
  if ((65 <=? n) && (n <=? 90)) ||
     ((192 <=? n) && (n <=? 222) && negb (n =? 215))
  then ascii_of_nat (n + 32) else c.

(** [str.upper] on one code point; the source applies it to the literal
    ["sql"] only, so only the letters whose capital stays below 256 matter. *)
Definition upper_char (c : ascii) : ascii :=
  let n := code c in
  if ((97 <=? n) && (n <=? 122)) ||
     ((224 <=? n) && (n <=? 254) && negb (n =? 247))
  then ascii_of_nat (n - 32) else c.

(** Regex [\w] for [str] patterns: alphanumeric code points and [_]. *)
Definition is_word (c : ascii) : bool :=
  let n := code c in
  ((48 <=? n) && (n <=? 57)) || ((65 <=? n) && (n <=? 90)) || (n =? 95) ||
  ((97 <=? n) && (n <=? 122)) || (n =? 170) || (n =? 178) || (n =? 179) ||
  (n =? 181) || (n =? 185) || (n =? 186) || ((188 <=? n) && (n <=? 190)) ||
  ((192 <=? n) && (n <=? 214)) || ((216 <=? n) && (n <=? 246)) ||
  ((248 <=? n) && (n <=? 255)).

(** The character class [[a-z0-9\+\#\.]] of [tokenize_words]. *)
Definition is_token_char (c : ascii) : bool :=
  let n := code c in
  ((97 <=? n) && (n <=? 122)) || ((48 <=? n) && (n <=? 57)) ||
  (n =? 43) || (n =? 35) || (n =? 46).

(** ** Strings *)

Fixpoint lower (s : string) : string :=
  match s with
  | EmptyString => EmptyString
  | String c s' => String (lower_char c) (lower s')
  end.

Fixpoint upper (s : string) : string :=
  match s with
  | EmptyString => EmptyString
  | String c s' => String (upper_char c) (upper s')
  end.

Definition is_empty (s : string) : bool :=
  match s with EmptyString => true | String _ _ => false end.

Fixpoint lstrip (s : string) : string :=
  match s with
  | EmptyString => EmptyString
  | String c s' => if isspace c then lstrip s' else s
  end.

Fixpoint rstrip (s : string) : string :=
  match s with
  | EmptyString => EmptyString
  | String c s' =>
      let r := rstrip s' in
      if isspace c && is_empty r then EmptyString else String c r
  end.

(** [str.strip()] *)
Definition strip (s : string) : string := rstrip (lstrip s).

(** [re.sub(r"\s+", " ", s)]: every maximal run of whitespace becomes one
    space.  [in_run] tells that the previous character belonged to the run
    being replaced. *)
Fixpoint sub_ws_from (in_run : bool) (s : string) : string :=
  match s with
  | EmptyString => EmptyString
  | String c s' =>
      if isspace c
      then if in_run then sub_ws_from true s'
           else String " " (sub_ws_from true s')
      else String c (sub_ws_from false s')
  end.

Definition sub_ws (s : string) : string := sub_ws_from false s.

(** [normalize]: [None] reads as the empty string. *)
Definition normalize (text : option string) : string :=
  let text := match text with None => "" | Some t => t end in
  lower (strip (sub_ws text)).

(** [p in s] on strings. *)
Fixpoint contains (p s : string) : bool :=
  String.prefix p s ||
  match s with
  | EmptyString => false
  | String _ s' => contains p s'
  end.

(** [sep.join(ls)] is [String.concat sep ls]; [len(s)] is [String.length s]. *)

(** Membership of a string in a constant list of strings. *)
Definition in_list (w : string) (l : list string) : bool :=
  existsb (String.eqb w) l.

(** ** Configuration constants *)

Definition TECH_KEYWORDS : list string :=
  [ "python"; "sql"; "api"; "rest"; "fastapi"; "flask"; "docker"; "git";
    "aws"; "azure"; "gcp"; "linux"; "windows"; "powershell";
    "servicenow"; "jira"; "incident"; "sla"; "intune"; "mdm";
    "troubleshooting"; "automation"; "llm"; "prompt"; "validation" ].

Definition RED_FLAG_PHRASES : list string :=
  [ "unpaid"; "pay to apply"; "gift card"; "telegram"; "whatsapp";
    "kindly"; "wire transfer"; "check deposit"; "remote equipment fee" ].

Definition TECH_SIGNAL_WORDS : gset string :=
  list_to_set
  [ "windows"; "linux"; "mac"; "microsoft"; "azure"; "aws"; "gcp";
    "active"; "directory"; "vpn"; "mfa"; "intune"; "servicenow";
    "jira"; "ticket"; "incident"; "sla"; "endpoint"; "desktop";
    "hardware"; "software"; "network"; "printer"; "outlook";
    "exchange"; "o365"; "office"; "sql"; "python"; "api";
    "powershell"; "security"; "firewall"; "router"; "switch";
    "server"; "deployment"; "imaging"; "autopilot"; "sccm" ].

Definition STOPWORDS : gset string :=
  list_to_set
  [ "the"; "and"; "or"; "a"; "an"; "to"; "of"; "in"; "for"; "with"; "on";
    "at"; "by"; "from"; "as"; "is"; "are"; "be";
    "this"; "that"; "these"; "those"; "you"; "your"; "we"; "our"; "will";
    "can"; "may"; "must"; "should"; "have";
    "has"; "had"; "their"; "they"; "them"; "it"; "its"; "not"; "but"; "if";
    "than"; "then"; "about"; "into"; "over";
    "within"; "across"; "per"; "including"; "etc"; "join"; "ability";
    "perform"; "routine"; "handle"; "maintain";
    "collaborate"; "improvement"; "knowledge" ].

(** The keyword sets written inline in [safe_rewrite_bullet]. *)
Definition INJECTABLE_KEYWORDS : list string :=
  [ "troubleshooting"; "automation"; "incident"; "sla"; "api"; "sql";
    "python"; "git" ].

Definition TOOL_KEYWORDS : list string := [ "python"; "sql"; "api"; "git" ].

(** ** Data structures *)

Record SuggestedEdit := {
  target : string;
  original : string;
  suggestion : string;
  rationale : string;
  needs_confirmation : bool
}.

(** ** Regular-expression matching with word boundaries *)

Definition head_char (s : string) : option ascii :=
  match s with EmptyString => None | String c _ => Some c end.

Definition word_at (o : option ascii) : bool :=
  match o with Some c => is_word c | None => false end.

(** [\b] at the position whose left neighbour is [prev] and where [rest]
    begins: exactly one side is a word character.  Outside the string counts
    as a non-word character. *)
Definition at_boundary (prev : option ascii) (rest : string) : bool :=
  xorb (word_at prev) (word_at (head_char rest)).

(** Match the literal [k] at the beginning of [s], characters compared with
    [eqc]; on success, the last character consumed (or [prev] when [k] is
    empty) and the text that follows. *)
Fixpoint match_literal (eqc : ascii -> ascii -> bool) (k s : string)
    (prev : option ascii) : option (option ascii * string) :=
  match k with
  | EmptyString => Some (prev, s)
  | String a k' =>
      match s with
      | EmptyString => None
      | String b s' =>
          if eqc a b then match_literal eqc k' s' (Some b) else None
      end
  end.

(** The pattern [\bk\b] matched at the current position; on success the text
    after the match. *)
Definition match_word_here (eqc : ascii -> ascii -> bool) (k : string)
    (prev : option ascii) (s : string) : option string :=
  if at_boundary prev s then
    match match_literal eqc k s prev with
    | Some (prev', rest) => if at_boundary prev' rest then Some rest else None
    | None => None
    end
  else None.

(** [re.search(rf"\b{re.escape(k)}\b", s) is not None], scanning from a
    position whose left neighbour is [prev]. *)
Fixpoint search_word_from (k : string) (prev : option ascii) (s : string)
    : bool :=
  match match_word_here Ascii.eqb k prev s with
  | Some _ => true
  | None =>
      match s with
      | EmptyString => false
      | String c s' => search_word_from k (Some c) s'
      end
  end.

Definition search_word (k s : string) : bool := search_word_from k None s.

(** Characters equal under [re.IGNORECASE] (code points below 256). *)
Definition eq_ignorecase (a b : ascii) : bool :=
  Ascii.eqb (lower_char a) (lower_char b).

(** ** Sorting *)

(** [sorted(l, key=...)] as a stable insertion sort: [leb x y] compares the
    keys of [x] and [y]; an element is placed before the first element whose
    key is not smaller, and elements are inserted from the right, so equal
    keys keep their input order. *)
Fixpoint insert_by {A} (leb : A -> A -> bool) (x : A) (l : list A) : list A :=
  match l with
  | [] => [x]
  | y :: l' => if leb x y then x :: l else y :: insert_by leb x l'
  end.

Definition sorted_by {A} (leb : A -> A -> bool) (l : list A) : list A :=
  foldr (insert_by leb) [] l.

(** [key=str.lower] *)
Definition lower_le (a b : string) : bool := String.leb (lower a) (lower b).

(** [sorted(s, key=str.lower)] for a set [s].  The order in which a Python
    set is enumerated is unspecified; [elements] fixes one.  It shows in the
    result only between strings that differ by case alone. *)
Definition sorted_set (s : gset string) : list string :=
  sorted_by lower_le (elements s).

(** ** Keyword matcher *)

Definition extract_keywords (text : string) (keyword_list : list string)
    : list string :=
  let t := normalize (Some text) in
  let found := List.filter (fun kw => search_word (lower kw) t) keyword_list in
  sorted_set (list_to_set found).

Definition find_red_flags (job_text : string) : list string :=
  let t := normalize (Some job_text) in
  List.filter (fun p => contains p t) RED_FLAG_PHRASES.

(** ** Tokenizer *)

Definition flush (cur : string) : list string :=
  if is_empty cur then [] else [cur].

(** The maximal runs of characters satisfying [P], left to right; [cur] is
    the run being read. *)
Fixpoint runs_from (P : ascii -> bool) (cur : string) (s : string)
    : list string :=
  match s with
  | EmptyString => flush cur
  | String c s' =>
      if P c then runs_from P (cur +:+ String c EmptyString) s'
      else flush cur ++ runs_from P EmptyString s'
  end.

(** [re.findall(r"[a-z0-9\+\#\.]+", s)] *)
Definition findall_tokens (s : string) : list string :=
  runs_from is_token_char EmptyString s.

(** [s.split()] *)
Definition split_ws (s : string) : list string :=
  runs_from (fun c => negb (isspace c)) EmptyString s.

Definition tokenize_words (text : string) : list string :=
  let t := normalize (Some text) in
  let words := findall_tokens t in
  List.filter
    (fun w => negb (is_empty w) && negb (bool_decide (w ∈ STOPWORDS)) &&
              (2 <? String.length w))
    words.

(** ** Python slices and ranges *)

(** The bound [i] of a slice over a sequence of length [len], as
    [slice.indices] clamps it. *)
Definition py_index (len i : Z) : Z :=
  if (i <? 0)%Z then Z.max 0 (i + len) else Z.min i len.

(** [l[lo:hi]] *)
Definition py_slice {A} (l : list A) (lo hi : Z) : list A :=
  let len := Z.of_nat (length l) in
  let a := py_index len lo in
  let b := py_index len hi in
  take (Z.to_nat (b - a)) (drop (Z.to_nat a) l).

(** [range(n)] *)
Definition py_range (n : Z) : list Z := map Z.of_nat (seq 0 (Z.to_nat n)).

(** ** Phrase extractor *)

(** The defaults of the signatures [rerank_phrases_diverse(phrases,
    max_per_token=3)] and [extract_phrases(text, n=2, top_k=25)]. *)
Definition rerank_default_max_per_token : Z := 3.
Definition extract_phrases_default_n : Z := 2.
Definition extract_phrases_default_top_k : Z := 25.

(** [max(tokens, key=len)] for a non-empty list [t :: ts]: the first of the
    longest elements. *)
Fixpoint max_by_len (best : string) (l : list string) : string :=
  match l with
  | [] => best
  | x :: l' =>
      max_by_len (if String.length best <? String.length x then x else best) l'
  end.

(** [anchor = max(tokens, key=len) if tokens else p] with
    [tokens = p.split()]. *)
Definition anchor (p : string) : string :=
  match split_ws p with
  | [] => p
  | t :: ts => max_by_len t ts
  end.

(** The number of phrases of [l] whose anchor is [a]. *)
Definition anchor_count (a : string) (l : list string) : nat :=
  length (List.filter (fun p => String.eqb (anchor p) a) l).

(** One iteration of the loop of [rerank_phrases_diverse]. *)
Definition rerank_step (max_per_token : Z)
    (st : gmap string nat * list string) (p : string)
    : gmap string nat * list string :=
  let '(counts, out) := st in
  let a := anchor p in
  let c := default 0 (counts !! a) + 1 in
  let counts := <[a := c]> counts in
  if (Z.of_nat c <=? max_per_token)%Z then (counts, out ++ [p])
  else (counts, out).

Definition rerank_phrases_diverse (phrases : list string) (max_per_token : Z)
    : list string :=
  snd (fold_left (rerank_step max_per_token) phrases (∅, [])).

Definition is_good_phrase (p : string) : bool :=
  let words := split_ws (lower p) in
  existsb (fun w => bool_decide (w ∈ TECH_SIGNAL_WORDS)) words.

(** The phrases of the first loop of [extract_phrases]. *)
Definition ngrams (words : list string) (n : Z) : list string :=
  map (fun i => String.concat " " (py_slice words i (i + n)))
      (py_range (Z.of_nat (length words) - n + 1)).

(** [freq[p] = freq.get(p, 0) + 1] on a dictionary kept in insertion order. *)
Fixpoint bump (p : string) (freq : list (string * nat))
    : list (string * nat) :=
  match freq with
  | [] => [(p, 1)]
  | (q, c) :: rest =>
      if String.eqb p q then (q, c + 1) :: rest else (q, c) :: bump p rest
  end.

Definition count_freq (phrases : list string) : list (string * nat) :=
  fold_left (fun freq p => bump p freq) phrases [].

(** The key [(-x[1], x[0])]: higher counts first, then the phrase. *)
Definition item_le (x y : string * nat) : bool :=
  (snd y <? snd x) || ((snd x =? snd y) && String.leb (fst x) (fst y)).

(** [extract_phrases] up to the list it hands to the rerank: the ranked
    phrases that pass the relevance filter. *)
Definition candidate_phrases (text : string) (n : Z) : list string :=
  let words := tokenize_words text in
  let phrases := ngrams words n in
  let freq := count_freq phrases in
  let items := sorted_by item_le freq in
  let filtered := map fst (List.filter (fun x => 1 <? snd x) items) in
  let filtered := List.filter is_good_phrase filtered in
  if length filtered <? 10
  then List.filter is_good_phrase (map fst items)
  else filtered.

Definition extract_phrases (text : string) (n top_k : Z) : list string :=
  let filtered := candidate_phrases text n in
  let filtered := rerank_phrases_diverse filtered 2 in
  py_slice filtered 0 top_k.

(** ** Scorer *)

(** [job_phrases] of [phrase_coverage]: the only call of [extract_phrases]. *)
Definition job_phrases (job_text : string) : list string :=
  extract_phrases job_text 3 25.

(** [len(overlap) / len(job_phrases) if job_phrases else 0.0] *)
Definition ratio (a b : nat) : Q :=
  match b with
  | O => 0
  | S _ => Z.of_nat a # Pos.of_nat b
  end.

Definition phrase_coverage (resume_text job_text : string)
    : Q * list string * list string :=
  let job_phrases := job_phrases job_text in
  let resume_norm := normalize (Some resume_text) in
  let overlap := List.filter (fun p => contains p resume_norm) job_phrases in
  let missing :=
    List.filter (fun p => negb (contains p resume_norm)) job_phrases in
  let coverage := ratio (length overlap) (length job_phrases) in
  (coverage, overlap, missing).

(** ** Edit suggester *)

(** The alternatives of [r"\bvery\b|\breally\b|\bjust\b"], in order. *)
Definition FILLER_WORDS : list string := [ "very"; "really"; "just" ].

(** The first alternative that matches at the current position, as the
    number of characters it consumes. *)
Fixpoint match_filler_here (alts : list string) (prev : option ascii)
    (s : string) : option nat :=
  match alts with
  | [] => None
  | w :: alts' =>
      match match_word_here eq_ignorecase w prev s with
      | Some _ => Some (String.length w)
      | None => match_filler_here alts' prev s
      end
  end.

(** [re.sub(r"\bvery\b|\breally\b|\bjust\b", "", s, flags=re.IGNORECASE)]:
    [skip] counts the characters of the current match still to be dropped,
    [prev] is the character of the input left of the current position. *)
Fixpoint sub_fillers_from (skip : nat) (prev : option ascii) (s : string)
    : string :=
  match s with
  | EmptyString => EmptyString
  | String c s' =>
      match skip with
      | S k => sub_fillers_from k (Some c) s'
      | O =>
          match match_filler_here FILLER_WORDS prev s with
          | Some (S k) => sub_fillers_from k (Some c) s'
          | _ => String c (sub_fillers_from 0 (Some c) s')
          end
      end
  end.

Definition sub_fillers (s : string) : string := sub_fillers_from 0 None s.

(** [re.sub(r"\s{2,}", " ", s)]: a run of two or more whitespace characters
    becomes one space; a lone whitespace character stays as it is. *)
Fixpoint sub_ws2_from (in_run : bool) (s : string) : string :=
  match s with
  | EmptyString => EmptyString
  | String c s' =>
      if isspace c then
        if in_run then sub_ws2_from true s'
        else match head_char s' with
             | Some c' =>
                 if isspace c' then String " " (sub_ws2_from true s')
                 else String c (sub_ws2_from false s')
             | None => String c (sub_ws2_from false s')
             end
      else String c (sub_ws2_from false s')
  end.

Definition sub_ws2 (s : string) : string := sub_ws2_from false s.

(** The two substitutions that give [tightened] from the stripped bullet. *)
Definition tighten (b : string) : string := sub_ws2 (strip (sub_fillers b)).

(** The loop that chooses [add_kw]: the first target keyword that does not
    occur in the normalised bullet and is one of the injectable ones. *)
Fixpoint select_kw (b : string) (target_keywords : list string)
    : option string :=
  match target_keywords with
  | [] => None
  | kw :: rest =>
      if contains (lower kw) (normalize (Some b)) then select_kw b rest
      else if in_list (lower kw) INJECTABLE_KEYWORDS then Some kw
      else select_kw b rest
  end.

(** [add_kw.upper() if add_kw=='sql' else add_kw] *)
Definition render_tool (add_kw : string) : string :=
  if String.eqb add_kw "sql" then upper add_kw else add_kw.

Definition BASE_RATIONALE : string := "Tightened wording for clarity.".

(** The source writes a dash above code point 255 between "posting" and
    "confirm"; the literal below holds its UTF-8 bytes.  The rationale is
    only concatenated, never inspected. *)
Definition tool_rationale (add_kw : string) : string :=
  BASE_RATIONALE +:+
  " Added a tool mention to align with the posting—confirm you actually used "
  +:+ add_kw +:+ ".".

Definition focus_rationale (add_kw : string) : string :=
  BASE_RATIONALE +:+ " Added focus keyword '" +:+ add_kw +:+
  "' to better match the posting.".

Definition safe_rewrite_bullet (bullet : string)
    (target_keywords : list string) : option SuggestedEdit :=
  let b := strip bullet in
  if is_empty b || (String.length b <? 20) then None
  else
    let tightened := tighten b in
    let add_kw := select_kw b target_keywords in
    let '(suggestion, needs_confirmation, rationale) :=
      match add_kw with
      | Some kw =>
          if is_empty kw then (tightened, false, BASE_RATIONALE)
          else if in_list (lower kw) TOOL_KEYWORDS
          then (tightened +:+ " (Tools used where applicable: " +:+
                  render_tool kw +:+ ".)",
                true, tool_rationale kw)
          else (tightened +:+ " (Focus: " +:+ kw +:+ ".)",
                false, focus_rationale kw)
      | None => (tightened, false, BASE_RATIONALE)
      end in
    if String.eqb suggestion b then None
    else Some {| target := "bullet";
                 original := b;
                 suggestion := suggestion;
                 rationale := rationale;
                 needs_confirmation := needs_confirmation |}.

(** ** Core agent: the keyword and phrase lists of [run_agent] *)

(** [overlap] and [missing] of [run_agent], for a keyword bank [K]
    ([run_agent] itself passes [TECH_KEYWORDS]). *)
Definition bank_overlap (K : list string) (resume_text job_text : string)
    : list string :=
  let resume_kws := extract_keywords resume_text K in
  let job_kws := extract_keywords job_text K in
  sorted_set ((list_to_set resume_kws : gset string) ∩ list_to_set job_kws).

Definition bank_missing (K : list string) (resume_text job_text : string)
    : list string :=
  let resume_kws := extract_keywords resume_text K in
  let job_kws := extract_keywords job_text K in
  sorted_set ((list_to_set job_kws : gset string) ∖ list_to_set resume_kws).

(** The list-valued fields of [MatchScores]; the two float fields
    ([keyword_coverage], [confidence]) are rounded floats and are left out. *)
Record MatchLists := {
  overlap_keywords : list string;
  missing_keywords : list string;
  red_flags : list string
}.

Definition tag_phrase (p : string) : string := "[PHRASE] " +:+ p.

Definition run_agent_lists (resume_text job_text : string) : MatchLists :=
  let overlap := bank_overlap TECH_KEYWORDS resume_text job_text in
  let missing := bank_missing TECH_KEYWORDS resume_text job_text in
  let '(_, phrase_overlap, phrase_missing) :=
    phrase_coverage resume_text job_text in
  {| overlap_keywords := overlap ++ map tag_phrase (py_slice phrase_overlap 0 10);
     missing_keywords := missing ++ map tag_phrase (py_slice phrase_missing 0 15);
     red_flags := find_red_flags job_text |}.


(** The string begins with a whitespace character. *)
Definition starts_with_space (s : string) : bool :=
  match head_char s with Some c => isspace c | None => false end.

(** ** Bullet discovery *)










(** [bank_cov] of [run_agent], for a keyword bank [K]. *)
Definition bank_coverage (K : list string) (resume_text job_text : string)
    : Q :=
  ratio (length (bank_overlap K resume_text job_text))
        (length (extract_keywords job_text K)).

(** ** Paste-mode input *)

(** The string ["\n"]. *)
Definition NEWLINE : string := String "010"%char EmptyString.

(** [collect_pasted_input] reading from a list of input lines: each call of
    [input()] takes the next line; at the end of the input it raises
    [EOFError], which is [None] here.  The result is the pasted text and the
    input left unread.  The prompts printed are not modelled. *)
Fixpoint collect_from (input : list string) (empty_count : nat)
    (lines : list string) : option (string * list string) :=
  match input with
  | [] => None
  | line :: rest =>
      if is_empty (strip line) then
        let empty_count := empty_count + 1 in
        if 2 <=? empty_count
        then Some (strip (String.concat NEWLINE lines), rest)
        else collect_from rest empty_count lines
      else collect_from rest 0 (lines ++ [line])
  end.

Definition collect_pasted_input (input : list string)
    : option (string * list string) :=
  collect_from input 0 [].

(** ** Input statistics *)

Record InputStats := {
  stats_label : string;
  stats_chars : nat;
  stats_words : nat;
  stats_preview : string
}.

(** [input_stats]: [text or ""] reads [None] as the empty string, and
    [text[:200]] is [String.substring 0 200 text]. *)
Definition input_stats (label : string) (text : option string) : InputStats :=
  let text := match text with None => "" | Some t => t end in
  {| stats_label := label;
     stats_chars := String.length text;
     stats_words := length (split_ws text);
     stats_preview := String.substring 0 200 text |}.

(** ** Auxiliary notions used in the statements and proofs *)

(** The loop state of [rerank_phrases_diverse] after the phrases of [l]. *)
Definition rerank_state (cap : Z) (l : list string)
    : gmap string nat * list string :=
  fold_left (rerank_step cap) l (∅, []).

(** The loop invariant: the dictionary counts every phrase read so far by
    anchor, the output holds of each anchor as many phrases as were read, up
    to the cap, and the output is a subsequence of what was read. *)
Definition rerank_inv (cap : Z) (l : list string)
    (st : gmap string nat * list string) : Prop :=
  (forall a, default 0 (fst st !! a) = anchor_count a l) /\
  (forall a, anchor_count a (snd st) =
             Nat.min (anchor_count a l) (Z.to_nat cap)) /\
  sublist (snd st) l.

(** The set of bank keywords found in a text. *)
Definition found_set (text : string) (K : list string) : gset string :=
  list_to_set
    (List.filter (fun kw => search_word (lower kw) (normalize (Some text))) K).

(** Whitespace is collapsed: every whitespace character is a space and is
    not followed by another whitespace character. *)
Fixpoint collapsed (s : string) : bool :=
  match s with
  | EmptyString => true
  | String c s' =>
      (if isspace c then Ascii.eqb c " " && negb (starts_with_space s')
       else true) && collapsed s'
  end.

(** No character of the string is whitespace. *)
Fixpoint no_space (s : string) : bool :=
  match s with
  | EmptyString => true
  | String c s' => negb (isspace c) && no_space s'
  end.

(** [freq.get(q, 0)] on the frequency dictionary. *)
Fixpoint freq_get (freq : list (string * nat)) (q : string) : nat :=
  match freq with
  | [] => 0
  | (r, d) :: rest => if String.eqb q r then d else freq_get rest q
  end.

(** The orders that the two sort keys induce. *)
Definition lower_order (a b : string) : Prop := lower_le a b = true.
Definition item_order (x y : string * nat) : Prop := item_le x y = true.

(** Every character of the string satisfies [P]. *)
Fixpoint all_chars (P : ascii -> bool) (s : string) : bool :=
  match s with
  | EmptyString => true
  | String c s' => P c && all_chars P s'
  end.

(** A word as [str.split] yields them: not empty, no whitespace. *)
Definition is_clean_word (w : string) : Prop := w <> "" /\ no_space w = true.

(** No two neighbouring characters of the string are both whitespace. *)
Fixpoint no_double_space (s : string) : bool :=
  match s with
  | EmptyString => true
  | String c s' =>
      negb (isspace c && starts_with_space s') && no_double_space s'
  end.



(** The last character of [s], or [prev] when [s] is empty: the character
    left of the position that follows [s]. *)
Fixpoint last_from (prev : option ascii) (s : string) : option ascii :=
  match s with
  | EmptyString => prev
  | String c s' => last_from (Some c) s'
  end.

(** * Properties *)

(** ** Red-flag detection *)

Lemma find_red_flags_filter job_text :
  find_red_flags job_text =
  List.filter (fun p => contains p (normalize (Some job_text))) RED_FLAG_PHRASES.
Proof. reflexivity. Qed.

Lemma run_agent_red_flags resume_text job_text :
  red_flags (run_agent_lists resume_text job_text) = find_red_flags job_text.
Proof.
  unfold run_agent_lists.
  destruct (phrase_coverage resume_text job_text) as [[cov po] pm].
  reflexivity.
Qed.

(** C5, as stated, fails: on a posting that contains "wire transfer" and
    "gift card" and no other red-flag phrase, the flags come out in the order
    of [RED_FLAG_PHRASES], where "gift card" stands before "wire transfer". *)
Lemma red_flags_order_counterexample :
  contains "wire transfer" "please send a wire transfer or a gift card" = true /\
  contains "gift card" "please send a wire transfer or a gift card" = true /\
  find_red_flags "please send a wire transfer or a gift card"
    <> [ "wire transfer"; "gift card" ].
Proof. repeat split; [vm_compute; reflexivity ..|]. vm_compute. discriminate. Qed.

(** C5 (amended): for every job text whose normalised form contains
    "gift card" and "wire transfer" and none of the other red-flag phrases,
    red-flag detection returns ["gift card"; "wire transfer"], the bank
    order, and [run_agent] reports exactly that list whatever the resume. *)
Theorem red_flags_bank_order (job_text : string) :
  contains "gift card" (normalize (Some job_text)) = true ->
  contains "wire transfer" (normalize (Some job_text)) = true ->
  (forall p, In p RED_FLAG_PHRASES -> p <> "gift card" ->
             p <> "wire transfer" ->
             contains p (normalize (Some job_text)) = false) ->
  find_red_flags job_text = [ "gift card"; "wire transfer" ] /\
  forall resume_text,
    red_flags (run_agent_lists resume_text job_text) =
    [ "gift card"; "wire transfer" ].
Proof.
  intros Hgift Hwire Hother.
  assert (Hflags : find_red_flags job_text = [ "gift card"; "wire transfer" ]).
  { rewrite find_red_flags_filter. unfold RED_FLAG_PHRASES. simpl.
    rewrite Hgift, Hwire.
    rewrite !Hother; first reflexivity; try discriminate;
      unfold RED_FLAG_PHRASES; simpl; tauto. }
  split; [exact Hflags|].
  intros resume_text. rewrite run_agent_red_flags. exact Hflags.
Qed.

Lemma red_flags_bank_order_witness :
  find_red_flags "Please send a WIRE  transfer or a gift card" =
    [ "gift card"; "wire transfer" ] /\
  forall resume_text,
    red_flags
      (run_agent_lists resume_text "Please send a WIRE  transfer or a gift card")
    = [ "gift card"; "wire transfer" ].
Proof.
  apply (red_flags_bank_order "Please send a WIRE  transfer or a gift card").
  - vm_compute; reflexivity.
  - vm_compute; reflexivity.
  - intros p Hp Hg Hw. unfold RED_FLAG_PHRASES in Hp. simpl in Hp.
    repeat (destruct Hp as [<-|Hp];
            [first [vm_compute; reflexivity | congruence]|]).
    destruct Hp.
Defined.

(** ** Short bullets *)

(** C9: a bullet whose stripped text has fewer than 20 characters yields no
    [SuggestedEdit]. *)
Theorem short_bullet_no_edit (bullet : string) (target_keywords : list string) :
  String.length (strip bullet) < 20 ->
  safe_rewrite_bullet bullet target_keywords = None.
Proof.
  intros Hlen. unfold safe_rewrite_bullet.
  apply Nat.ltb_lt in Hlen. rewrite Hlen, orb_true_r. reflexivity.
Qed.

Lemma short_bullet_no_edit_witness :
  safe_rewrite_bullet "  - fixed printers  " [ "python"; "sql" ] = None.
Proof.
  apply (short_bullet_no_edit "  - fixed printers  " [ "python"; "sql" ]).
  vm_compute. lia.
Defined.

(** ** Window size of the phrase extractor *)

Lemma py_range_nonpositive (n : Z) : (n <= 0)%Z -> py_range n = [].
Proof.
  intros Hn. unfold py_range.
  replace (Z.to_nat n) with 0 by lia. reflexivity.
Qed.

Lemma py_range_length (n : Z) : length (py_range n) = Z.to_nat n.
Proof. unfold py_range. rewrite length_map, length_seq. reflexivity. Qed.

Lemma py_range_lookup (n : Z) (i : nat) :
  i < Z.to_nat n -> py_range n !! i = Some (Z.of_nat i).
Proof.
  intros Hi. unfold py_range.
  rewrite list_lookup_fmap, lookup_seq_lt by exact Hi. reflexivity.
Qed.

Lemma py_slice_nil {A} (lo hi : Z) : py_slice (@nil A) lo hi = [].
Proof. unfold py_slice. rewrite drop_nil, take_nil. reflexivity. Qed.

(** A window that starts inside the list and does not run past its end is
    the [n] elements from position [i] on. *)
Lemma py_slice_window {A} (l : list A) (i n : nat) :
  i + n <= length l ->
  py_slice l (Z.of_nat i) (Z.of_nat i + Z.of_nat n) = take n (drop i l).
Proof.
  intros Hin. unfold py_slice, py_index.
  destruct (Z.ltb_spec (Z.of_nat i) 0) as [?|_]; [lia|].
  destruct (Z.ltb_spec (Z.of_nat i + Z.of_nat n) 0) as [?|_]; [lia|].
  rewrite !Z.min_l by lia.
  replace (Z.to_nat (Z.of_nat i + Z.of_nat n - Z.of_nat i)) with n by lia.
  rewrite Nat2Z.id. reflexivity.
Qed.

Lemma ngrams_short (words : list string) (n : Z) :
  (Z.of_nat (length words) < n)%Z -> ngrams words n = [].
Proof.
  intros Hn. unfold ngrams. rewrite py_range_nonpositive by lia. reflexivity.
Qed.

Lemma rerank_nil (cap : Z) : rerank_phrases_diverse [] cap = [].
Proof. reflexivity. Qed.

(** C4, as stated, fails: the default window of [extract_phrases] is 2, not
    3, so a text with two tokens (fewer than 3) yields a phrase when the
    window is left to its default. *)
Lemma default_window_counterexample :
  length (tokenize_words "python sql") = 2 /\
  extract_phrases "python sql" extract_phrases_default_n
                  extract_phrases_default_top_k <> [].
Proof. split; [vm_compute; reflexivity|]. vm_compute. discriminate. Qed.

(** C4 (amended): the phrase extractor builds the contiguous n-grams of the
    token list for a fixed window size [n] whose default value is 2 (the only
    call, in [phrase_coverage], passes 3); a text with fewer than [n] tokens
    yields no phrases, and with at least [n >= 1] tokens the [i]-th n-gram is
    the space-joined run of [n] tokens that starts at token [i]. *)
Theorem extract_phrases_window :
  extract_phrases_default_n = 2%Z /\
  (forall job_text, job_phrases job_text = extract_phrases job_text 3 25) /\
  (forall text n top_k,
     (Z.of_nat (length (tokenize_words text)) < n)%Z ->
     extract_phrases text n top_k = []) /\
  (forall (words : list string) (n i : nat),
     1 <= n -> i + n <= length words ->
     length (ngrams words (Z.of_nat n)) = length words - n + 1 /\
     ngrams words (Z.of_nat n) !! i =
       Some (String.concat " " (take n (drop i words)))).
Proof.
  split; [reflexivity|]. split; [reflexivity|]. split.
  - intros text n top_k Hshort.
    unfold extract_phrases, candidate_phrases.
    rewrite ngrams_short by exact Hshort. simpl.
    rewrite rerank_nil. apply py_slice_nil.
  - intros words n i Hn Hin. unfold ngrams. split.
    + rewrite length_map, py_range_length. lia.
    + rewrite list_lookup_fmap, py_range_lookup by lia. simpl.
      rewrite py_slice_window by exact Hin. reflexivity.
Qed.

Lemma extract_phrases_window_witness :
  extract_phrases "python sql" 3 25 = [] /\
  ngrams [ "aws"; "sql"; "powershell"; "api" ] 3 !! 1 =
    Some "sql powershell api".
Proof.
  destruct extract_phrases_window as (_ & _ & Hshort & Hgram). split.
  - apply Hshort. vm_compute. reflexivity.
  - apply (Hgram [ "aws"; "sql"; "powershell"; "api" ] 3 1); simpl; lia.
Defined.

(** ** Keyword injection tests plain substrings *)

Lemma select_kw_find (b : string) (target_keywords : list string) :
  select_kw b target_keywords =
  List.find (fun kw => negb (contains (lower kw) (normalize (Some b))) &&
                       in_list (lower kw) INJECTABLE_KEYWORDS)
            target_keywords.
Proof.
  induction target_keywords as [|kw rest IH]; [reflexivity|].
  cbn [select_kw List.find]. rewrite IH.
  destruct (contains (lower kw) (normalize (Some b))); cbn [negb andb];
    [reflexivity|].
  destruct (in_list (lower kw) INJECTABLE_KEYWORDS); reflexivity.
Qed.

Lemma select_kw_absent (b : string) (target_keywords : list string) (kw : string) :
  select_kw b target_keywords = Some kw ->
  contains (lower kw) (normalize (Some b)) = false /\
  in_list (lower kw) INJECTABLE_KEYWORDS = true /\
  In kw target_keywords.
Proof.
  rewrite select_kw_find. intros Hfind.
  apply find_some in Hfind as [Hin Htest].
  apply andb_true_iff in Htest as [Habs Hinj].
  apply negb_true_iff in Habs. auto.
Qed.

(** C10: the injection loop of [safe_rewrite_bullet] skips a keyword exactly
    when its lower-case form is a plain substring of the normalised bullet
    (it selects the first keyword that is not such a substring and is
    injectable), so a keyword embedded in a longer word is never injected:
    "api" is not found in "Delivered rapid fixes for all users" by the
    word-boundary search of the keyword matcher, yet the loop treats it as
    present and nothing is suggested. *)
Theorem injection_presence_is_substring :
  (forall b target_keywords,
     select_kw b target_keywords =
     List.find (fun kw => negb (contains (lower kw) (normalize (Some b))) &&
                          in_list (lower kw) INJECTABLE_KEYWORDS)
               target_keywords) /\
  (forall b target_keywords kw,
     contains (lower kw) (normalize (Some b)) = true ->
     select_kw b target_keywords <> Some kw) /\
  (extract_keywords "Delivered rapid fixes for all users" [ "api" ] = [] /\
   contains "api" (normalize (Some "Delivered rapid fixes for all users")) = true /\
   select_kw "Delivered rapid fixes for all users" [ "api" ] = None /\
   safe_rewrite_bullet "Delivered rapid fixes for all users" [ "api" ] = None).
Proof.
  split; [exact select_kw_find|]. split.
  - intros b kws kw Hpresent Hsel.
    apply select_kw_absent in Hsel as [Habs _]. congruence.
  - repeat split; vm_compute; reflexivity.
Qed.

(** ** Diversity rerank *)

Section Rerank.

Variable cap : Z.

Lemma rerank_state_snoc (l : list string) (p : string) :
  rerank_state cap (l ++ [p]) = rerank_step cap (rerank_state cap l) p.
Proof. unfold rerank_state. rewrite fold_left_app. reflexivity. Qed.

Lemma anchor_count_snoc (a : string) (l : list string) (p : string) :
  anchor_count a (l ++ [p]) =
  anchor_count a l + (if String.eqb (anchor p) a then 1 else 0).
Proof.
  unfold anchor_count. rewrite List.filter_app, length_app. simpl.
  destruct (String.eqb (anchor p) a); reflexivity.
Qed.

Lemma rerank_inv_holds (l : list string) :
  rerank_inv cap l (rerank_state cap l).
Proof.
  induction l as [|p l IH] using rev_ind.
  - repeat split; intros; reflexivity.
  - rewrite rerank_state_snoc.
    destruct (rerank_state cap l) as [counts out].
    destruct IH as (Hcounts & Hout & Hsub). cbn [fst snd] in *.
    unfold rerank_step.
    set (c := default 0 (counts !! anchor p) + 1).
    assert (Hc : c = anchor_count (anchor p) l + 1)
      by (unfold c; rewrite Hcounts; reflexivity).
    assert (Hcounts' : forall a,
               default 0 (<[anchor p := c]> counts !! a) =
               anchor_count a (l ++ [p])).
    { intros a. rewrite anchor_count_snoc.
      destruct (String.eqb_spec (anchor p) a) as [<-|Hne].
      - rewrite lookup_insert_eq. simpl. exact Hc.
      - rewrite lookup_insert_ne by exact Hne. rewrite Hcounts. lia. }
    destruct (Z.leb_spec (Z.of_nat c) cap) as [Hle|Hgt];
      unfold rerank_inv; cbn [fst snd];
      (split; [exact Hcounts'|]); split.
    + intros a. rewrite !anchor_count_snoc, Hout.
      destruct (String.eqb_spec (anchor p) a) as [<-|Hne]; lia.
    + apply sublist_app; [exact Hsub|reflexivity].
    + intros a. rewrite anchor_count_snoc, Hout.
      destruct (String.eqb_spec (anchor p) a) as [<-|Hne]; lia.
    + apply sublist_inserts_r. exact Hsub.
Qed.

Lemma rerank_count_min (l : list string) (a : string) :
  anchor_count a (rerank_phrases_diverse l cap) =
  Nat.min (anchor_count a l) (Z.to_nat cap).
Proof. apply (rerank_inv_holds l). Qed.

Lemma rerank_sublist (l : list string) :
  sublist (rerank_phrases_diverse l cap) l.
Proof. apply (rerank_inv_holds l). Qed.

End Rerank.

Lemma anchor_count_pos (p : string) (l : list string) :
  In p l -> 1 <= anchor_count (anchor p) l.
Proof.
  intros Hin. unfold anchor_count.
  assert (Hf : In p (List.filter (fun q => String.eqb (anchor q) (anchor p)) l)).
  { apply filter_In. split; [exact Hin|apply String.eqb_refl]. }
  destruct (List.filter _ l); [destruct Hf|simpl; lia].
Qed.

Lemma anchor_count_sublist (a : string) (l1 l2 : list string) :
  sublist l1 l2 -> anchor_count a l1 <= anchor_count a l2.
Proof.
  unfold anchor_count. induction 1 as [|x l1 l2 _ IH|x l1 l2 _ IH]; simpl.
  - lia.
  - destruct (String.eqb (anchor x) a); simpl; lia.
  - destruct (String.eqb (anchor x) a); simpl; lia.
Qed.

(** [max_by_len]: the result splits the list at the first longest element. *)
Lemma max_by_len_ge (l : list string) (best : string) :
  String.length best <= String.length (max_by_len best l).
Proof.
  revert best. induction l as [|x l IH]; intros best; simpl; [lia|].
  destruct (Nat.ltb_spec (String.length best) (String.length x)) as [Hlt|Hge].
  - specialize (IH x). lia.
  - apply IH.
Qed.

Lemma max_by_len_split (l : list string) (best : string) :
  exists pre post,
    best :: l = pre ++ max_by_len best l :: post /\
    Forall (fun t => String.length t < String.length (max_by_len best l)) pre /\
    Forall (fun t => String.length t <= String.length (max_by_len best l)) post.
Proof.
  revert best. induction l as [|x l IH]; intros best; simpl.
  - exists [], []. repeat split; constructor.
  - destruct (Nat.ltb_spec (String.length best) (String.length x)) as [Hlt|Hge].
    + destruct (IH x) as (pre & post & Heq & Hpre & Hpost).
      exists (best :: pre), post. rewrite Heq. repeat split; [|exact Hpost].
      constructor; [|exact Hpre].
      pose proof (max_by_len_ge l x). lia.
    + destruct (IH best) as (pre & post & Heq & Hpre & Hpost).
      set (m := max_by_len best l) in *.
      destruct pre as [|b pre]; simpl in Heq; injection Heq as Hb Hl.
      * exists [], (x :: l). rewrite <- Hb. repeat split; [constructor|].
        constructor; [exact Hge|]. rewrite Hl, Hb. exact Hpost.
      * subst b. exists (best :: x :: pre), post.
        split; [simpl; do 2 f_equal; exact Hl|]. split; [|exact Hpost].
        pose proof (Forall_inv Hpre) as Hbest. simpl in Hbest.
        pose proof (Forall_inv_tail Hpre) as Hpre'.
        constructor; [exact Hbest|]. constructor; [lia|exact Hpre'].
Qed.

(** C6: whatever the phrase list and the cap, the output of the diversity
    rerank holds, for the anchor of each of its phrases, at most [cap]
    phrases (for any anchor at all: at most [max 0 cap]), and it is a
    subsequence of the input; the anchor of a phrase with at least one word
    is its longest word, the first one among equally long words. *)
Theorem rerank_respects_cap (phrases : list string) (cap : Z) :
  (forall p, In p (rerank_phrases_diverse phrases cap) ->
     (Z.of_nat (anchor_count (anchor p) (rerank_phrases_diverse phrases cap))
      <= cap)%Z) /\
  (forall a,
     (Z.of_nat (anchor_count a (rerank_phrases_diverse phrases cap))
      <= Z.max 0 cap)%Z) /\
  sublist (rerank_phrases_diverse phrases cap) phrases /\
  (forall p t ts, split_ws p = t :: ts ->
     exists pre post,
       split_ws p = pre ++ anchor p :: post /\
       Forall (fun w => String.length w < String.length (anchor p)) pre /\
       Forall (fun w => String.length w <= String.length (anchor p)) post).
Proof.
  split; [|split; [|split]].
  - intros p Hin. apply anchor_count_pos in Hin.
    rewrite rerank_count_min in *. lia.
  - intros a. rewrite rerank_count_min. lia.
  - apply rerank_sublist.
  - intros p t ts Hsplit. unfold anchor. rewrite Hsplit.
    apply max_by_len_split.
Qed.

Example rerank_cap_two :
  rerank_phrases_diverse
    [ "aws sql powershell"; "powershell api gcp"; "sql powershell api";
      "python api" ] 2
  = [ "aws sql powershell"; "powershell api gcp"; "python api" ].
Proof. vm_compute. reflexivity. Qed.

Example anchor_first_longest : anchor "management via servicenow" = "management".
Proof. vm_compute. reflexivity. Qed.

(** ** The cap of the rerank at its call site *)

Lemma py_slice_prefix_sublist {A} (l : list A) (k : Z) :
  sublist (py_slice l 0 k) l.
Proof.
  unfold py_slice.
  assert (Hzero : py_index (Z.of_nat (length l)) 0 = 0%Z)
    by (unfold py_index; rewrite Z.ltb_irrefl; lia).
  rewrite Hzero. apply sublist_take.
Qed.

Lemma filter_split_length {A} (f g : A -> bool) (l : list A) :
  length (List.filter g (List.filter f l)) +
  length (List.filter g (List.filter (fun x => negb (f x)) l)) =
  length (List.filter g l).
Proof.
  induction l as [|x l IH]; simpl; [reflexivity|].
  destruct (f x); simpl; destruct (g x); simpl; lia.
Qed.

Lemma extract_phrases_anchor_count (text : string) (n top_k : Z) (a : string) :
  anchor_count a (extract_phrases text n top_k) <= 2.
Proof.
  unfold extract_phrases.
  etransitivity;
    [apply anchor_count_sublist, py_slice_prefix_sublist|].
  rewrite rerank_count_min. lia.
Qed.

(** C3, as stated, fails: [phrase_coverage] takes its phrases from
    [extract_phrases], whose rerank runs with cap 2.  On the posting below
    three ranked candidates share the anchor "powershell"; a cap of 3 would
    keep all three, the coverage phrases hold two. *)
Lemma coverage_cap_counterexample :
  anchor_count "powershell"
    (rerank_phrases_diverse
       (candidate_phrases "aws sql powershell api gcp" 3)
       rerank_default_max_per_token) = 3 /\
  anchor_count "powershell" (job_phrases "aws sql powershell api gcp") = 2 /\
  job_phrases "aws sql powershell api gcp" <>
    py_slice
      (rerank_phrases_diverse
         (candidate_phrases "aws sql powershell api gcp" 3) 3) 0 25.
Proof.
  split; [vm_compute; reflexivity|]. split; [vm_compute; reflexivity|].
  vm_compute. discriminate.
Qed.

(** C3 (amended): the diversity rerank has one call site, inside
    [extract_phrases], with cap 2; [phrase_coverage] obtains its phrases
    through that call (window 3, top_k 25), so the coverage phrases and every
    other result of [extract_phrases] hold at most 2 phrases per anchor.  The
    default cap 3 of the rerank is used by no call. *)
Theorem rerank_single_call_site_cap_two :
  (forall text n top_k,
     extract_phrases text n top_k =
     py_slice (rerank_phrases_diverse (candidate_phrases text n) 2) 0 top_k) /\
  (forall job_text,
     job_phrases job_text =
     py_slice (rerank_phrases_diverse (candidate_phrases job_text 3) 2) 0 25) /\
  (forall text n top_k a,
     anchor_count a (extract_phrases text n top_k) <= 2) /\
  (forall resume_text job_text a,
     anchor_count a (snd (fst (phrase_coverage resume_text job_text))) +
     anchor_count a (snd (phrase_coverage resume_text job_text)) =
     anchor_count a (job_phrases job_text) /\
     anchor_count a (job_phrases job_text) <= 2).
Proof.
  split; [reflexivity|]. split; [reflexivity|].
  split; [exact extract_phrases_anchor_count|].
  intros resume_text job_text a. split.
  - unfold phrase_coverage, anchor_count. cbn [fst snd].
    apply filter_split_length.
  - unfold job_phrases. apply extract_phrases_anchor_count.
Qed.

(** ** Bank keywords: overlap and missing *)

Lemma insert_by_perm {A} (leb : A -> A -> bool) (x : A) (l : list A) :
  Permutation (insert_by leb x l) (x :: l).
Proof.
  induction l as [|y l IH]; simpl; [reflexivity|].
  destruct (leb x y); [reflexivity|].
  rewrite IH. apply perm_swap.
Qed.

Lemma sorted_by_perm {A} (leb : A -> A -> bool) (l : list A) :
  Permutation (sorted_by leb l) l.
Proof.
  induction l as [|x l IH]; simpl; [reflexivity|].
  rewrite insert_by_perm. constructor. exact IH.
Qed.

Lemma sorted_set_perm (s : gset string) :
  Permutation (sorted_set s) (elements s).
Proof. apply sorted_by_perm. Qed.

Lemma sorted_set_NoDup (s : gset string) : NoDup (sorted_set s).
Proof. rewrite sorted_set_perm. apply NoDup_elements. Qed.

Lemma elem_of_sorted_set (s : gset string) (x : string) :
  x ∈ sorted_set s <-> x ∈ s.
Proof. rewrite sorted_set_perm. apply elem_of_elements. Qed.

Lemma list_to_set_sorted_set (s : gset string) :
  list_to_set (sorted_set s) = s.
Proof.
  apply set_eq. intros x.
  rewrite elem_of_list_to_set. apply elem_of_sorted_set.
Qed.

Lemma extract_keywords_sorted_set (text : string) (K : list string) :
  extract_keywords text K = sorted_set (found_set text K).
Proof. reflexivity. Qed.

Lemma elem_of_bank_overlap K resume_text job_text x :
  x ∈ bank_overlap K resume_text job_text <->
  x ∈ found_set resume_text K /\ x ∈ found_set job_text K.
Proof.
  unfold bank_overlap. rewrite !extract_keywords_sorted_set.
  rewrite elem_of_sorted_set, !list_to_set_sorted_set. set_solver.
Qed.

Lemma elem_of_bank_missing K resume_text job_text x :
  x ∈ bank_missing K resume_text job_text <->
  x ∈ found_set job_text K /\ x ∉ found_set resume_text K.
Proof.
  unfold bank_missing. rewrite !extract_keywords_sorted_set.
  rewrite elem_of_sorted_set, !list_to_set_sorted_set. set_solver.
Qed.

(** C1: for every keyword bank and every pair of texts, the bank overlap and
    missing lists of [run_agent] partition the bank keywords of the job
    posting: together they hold each of them exactly once, no keyword is in
    both, and the report fields are these lists followed by the tagged
    phrases. *)
Theorem overlap_missing_partition (K : list string)
    (resume_text job_text : string) :
  Permutation
    (bank_overlap K resume_text job_text ++ bank_missing K resume_text job_text)
    (extract_keywords job_text K) /\
  (forall x, In x (extract_keywords job_text K) <->
             In x (bank_overlap K resume_text job_text) \/
             In x (bank_missing K resume_text job_text)) /\
  (forall x, ~ (In x (bank_overlap K resume_text job_text) /\
                In x (bank_missing K resume_text job_text))) /\
  (exists tagged,
     overlap_keywords (run_agent_lists resume_text job_text) =
     bank_overlap TECH_KEYWORDS resume_text job_text ++ map tag_phrase tagged) /\
  (exists tagged,
     missing_keywords (run_agent_lists resume_text job_text) =
     bank_missing TECH_KEYWORDS resume_text job_text ++ map tag_phrase tagged).
Proof.
  assert (Hunion : forall x, x ∈ extract_keywords job_text K <->
             x ∈ bank_overlap K resume_text job_text \/
             x ∈ bank_missing K resume_text job_text).
  { intros x. rewrite elem_of_bank_overlap, elem_of_bank_missing.
    rewrite extract_keywords_sorted_set, elem_of_sorted_set.
    destruct (decide (x ∈ found_set resume_text K)); tauto. }
  assert (Hdisj : forall x, ~ (x ∈ bank_overlap K resume_text job_text /\
                               x ∈ bank_missing K resume_text job_text)).
  { intros x. rewrite elem_of_bank_overlap, elem_of_bank_missing. tauto. }
  split; [|split; [|split; [|split]]].
  - apply NoDup_Permutation.
    + apply NoDup_app. split; [apply sorted_set_NoDup|].
      split; [|apply sorted_set_NoDup].
      intros x Hov Hms. exact (Hdisj x (conj Hov Hms)).
    + rewrite extract_keywords_sorted_set. apply sorted_set_NoDup.
    + intros x. rewrite elem_of_app. symmetry. apply Hunion.
  - intros x. rewrite <- !list_elem_of_In. apply Hunion.
  - intros x. rewrite <- !list_elem_of_In. apply Hdisj.
  - unfold run_agent_lists.
    destruct (phrase_coverage resume_text job_text) as [[cov po] pm].
    eexists. reflexivity.
  - unfold run_agent_lists.
    destruct (phrase_coverage resume_text job_text) as [[cov po] pm].
    eexists. reflexivity.
Qed.

Example overlap_missing_scenario :
  bank_overlap TECH_KEYWORDS
    "Handled incidents and SLA tracking, used SQL daily"
    "Python, SQL, and incident management via ServiceNow, SLA tracking required"
  = [ "sla"; "sql" ] /\
  bank_missing TECH_KEYWORDS
    "Handled incidents and SLA tracking, used SQL daily"
    "Python, SQL, and incident management via ServiceNow, SLA tracking required"
  = [ "incident"; "python"; "servicenow" ].
Proof. split; vm_compute; reflexivity. Qed.

(** ** The normaliser *)

Lemma isspace_lower_char (c : ascii) : isspace (lower_char c) = isspace c.
Proof. destruct c as [[] [] [] [] [] [] [] []]; vm_compute; reflexivity. Qed.

Lemma lower_char_idem (c : ascii) : lower_char (lower_char c) = lower_char c.
Proof. destruct c as [[] [] [] [] [] [] [] []]; vm_compute; reflexivity. Qed.

Lemma lower_idem (s : string) : lower (lower s) = lower s.
Proof.
  induction s as [|c s IH]; simpl; [reflexivity|].
  rewrite lower_char_idem, IH. reflexivity.
Qed.

Lemma is_empty_lower (s : string) : is_empty (lower s) = is_empty s.
Proof. destruct s; reflexivity. Qed.

Lemma lower_sub_ws_from (b : bool) (s : string) :
  sub_ws_from b (lower s) = lower (sub_ws_from b s).
Proof.
  revert b. induction s as [|c s IH]; intros b; simpl; [reflexivity|].
  rewrite isspace_lower_char.
  destruct (isspace c); [destruct b|]; simpl; rewrite IH; reflexivity.
Qed.

Lemma lower_lstrip (s : string) : lstrip (lower s) = lower (lstrip s).
Proof.
  induction s as [|c s IH]; simpl; [reflexivity|].
  rewrite isspace_lower_char. destruct (isspace c); [exact IH|reflexivity].
Qed.

Lemma lower_rstrip (s : string) : rstrip (lower s) = lower (rstrip s).
Proof.
  induction s as [|c s IH]; simpl; [reflexivity|].
  rewrite isspace_lower_char, IH, is_empty_lower.
  destruct (isspace c && is_empty (rstrip s)); reflexivity.
Qed.

Lemma lower_strip (s : string) : strip (lower s) = lower (strip s).
Proof. unfold strip. rewrite lower_lstrip, lower_rstrip. reflexivity. Qed.

Lemma sub_ws_from_collapsed (b : bool) (s : string) :
  collapsed (sub_ws_from b s) = true /\
  (b = true -> starts_with_space (sub_ws_from b s) = false).
Proof.
  revert b. induction s as [|c s IH]; intros b; simpl; [auto|].
  destruct (isspace c) eqn:Hc.
  - destruct b.
    + apply IH.
    + split; [|discriminate]. simpl.
      destruct (IH true) as [Hcol Hhead]. rewrite Hcol, Hhead; reflexivity.
  - split.
    + simpl. rewrite Hc. apply IH.
    + intros _. unfold starts_with_space. simpl. exact Hc.
Qed.

Lemma collapsed_fixed (s : string) (b : bool) :
  collapsed s = true ->
  (b = true -> starts_with_space s = false) ->
  sub_ws_from b s = s.
Proof.
  revert b. induction s as [|c s IH]; intros b Hcol Hhead; simpl;
    [reflexivity|].
  simpl in Hcol. apply andb_true_iff in Hcol as [Hc Hcol].
  destruct (isspace c) eqn:Hsp.
  - apply andb_true_iff in Hc as [Heq Hnext].
    apply Ascii.eqb_eq in Heq. apply negb_true_iff in Hnext.
    destruct b.
    + specialize (Hhead eq_refl). unfold starts_with_space in Hhead.
      simpl in Hhead. congruence.
    + rewrite (IH true Hcol (fun _ => Hnext)). rewrite Heq. reflexivity.
  - rewrite (IH false Hcol); [reflexivity|discriminate].
Qed.

Lemma collapsed_lstrip (s : string) :
  collapsed s = true -> collapsed (lstrip s) = true.
Proof.
  induction s as [|c s IH]; simpl; [auto|].
  intros Hcol. destruct (isspace c) eqn:Hc;
    [|simpl; rewrite Hc; exact Hcol].
  apply andb_true_iff in Hcol as [_ Hcol]. auto.
Qed.

Lemma rstrip_starts (s : string) :
  starts_with_space s = false -> starts_with_space (rstrip s) = false.
Proof.
  destruct s as [|c s]; [reflexivity|].
  unfold starts_with_space. simpl. intros Hc. rewrite Hc. simpl. exact Hc.
Qed.

Lemma collapsed_rstrip (s : string) :
  collapsed s = true -> collapsed (rstrip s) = true.
Proof.
  induction s as [|c s IH]; simpl; [auto|].
  intros Hcol. apply andb_true_iff in Hcol as [Hc Hcol].
  destruct (isspace c && is_empty (rstrip s)) eqn:Hdrop; [reflexivity|].
  simpl. rewrite (IH Hcol), andb_true_r.
  destruct (isspace c); [|reflexivity].
  apply andb_true_iff in Hc as [Heq Hnext]. rewrite Heq. simpl.
  apply negb_true_iff in Hnext. rewrite (rstrip_starts s Hnext). reflexivity.
Qed.

Lemma lstrip_starts (s : string) : starts_with_space (lstrip s) = false.
Proof.
  induction s as [|c s IH]; simpl; [reflexivity|].
  destruct (isspace c) eqn:Hc; [exact IH|].
  unfold starts_with_space. simpl. exact Hc.
Qed.

Lemma lstrip_fixed (s : string) :
  starts_with_space s = false -> lstrip s = s.
Proof.
  destruct s as [|c s]; [reflexivity|].
  unfold starts_with_space. simpl. intros ->. reflexivity.
Qed.

Lemma rstrip_idem (s : string) : rstrip (rstrip s) = rstrip s.
Proof.
  induction s as [|c s IH]; simpl; [reflexivity|].
  destruct (isspace c && is_empty (rstrip s)) eqn:Hdrop; [reflexivity|].
  simpl. rewrite IH, Hdrop. reflexivity.
Qed.

Lemma strip_idem (s : string) : strip (strip s) = strip s.
Proof.
  unfold strip.
  rewrite (lstrip_fixed (rstrip (lstrip s)))
    by apply rstrip_starts, lstrip_starts.
  apply rstrip_idem.
Qed.

Lemma strip_sub_ws_fixed (t : string) :
  sub_ws (strip (sub_ws t)) = strip (sub_ws t).
Proof.
  apply collapsed_fixed; [|discriminate].
  apply collapsed_rstrip, collapsed_lstrip, sub_ws_from_collapsed.
Qed.

Lemma normalize_lower (x : option string) :
  lower (normalize x) = normalize x.
Proof. apply lower_idem. Qed.

Lemma normalize_strip (x : option string) :
  strip (normalize x) = normalize x.
Proof. unfold normalize. rewrite lower_strip, strip_idem. reflexivity. Qed.

Lemma normalize_sub_ws (x : option string) :
  sub_ws (normalize x) = normalize x.
Proof.
  unfold normalize, sub_ws at 1.
  rewrite lower_sub_ws_from. fold (sub_ws (strip (sub_ws
    match x with Some t => t | None => "" end))).
  rewrite strip_sub_ws_fixed. reflexivity.
Qed.

(** C7: [normalize] is defined on every input, [None] and the empty string
    included (both give the empty string); its result is lower-cased
    ([lower] leaves it unchanged), whitespace-collapsed (its only whitespace
    characters are single spaces, [collapsed]; [re.sub] leaves it unchanged)
    and trimmed ([strip] leaves it unchanged); and it is idempotent. *)
Theorem normalize_idempotent (x : option string) :
  normalize (Some (normalize x)) = normalize x /\
  normalize None = "" /\
  normalize (Some "") = "" /\
  lower (normalize x) = normalize x /\
  collapsed (normalize x) = true /\
  sub_ws (normalize x) = normalize x /\
  strip (normalize x) = normalize x.
Proof.
  assert (Hidem : normalize (Some (normalize x)) = normalize x).
  { unfold normalize at 1.
    rewrite normalize_sub_ws, normalize_strip. apply normalize_lower. }
  repeat split; try reflexivity; auto using normalize_lower,
    normalize_sub_ws, normalize_strip.
  rewrite <- normalize_sub_ws. apply sub_ws_from_collapsed.
Qed.

Example normalize_example :
  normalize (Some "  Senior   SQL
	Developer ") = "senior sql developer".
Proof. vm_compute. reflexivity. Qed.

(** ** Substrings and joins *)

Lemma str_app_cons (c : ascii) (s t : string) :
  String c s +:+ t = String c (s +:+ t).
Proof. reflexivity. Qed.

Lemma str_app_nil_r (s : string) : s +:+ "" = s.
Proof.
  induction s as [|c s IH]; [reflexivity|].
  rewrite str_app_cons, IH. reflexivity.
Qed.

Lemma str_app_assoc (s t u : string) : (s +:+ t) +:+ u = s +:+ (t +:+ u).
Proof.
  induction s as [|c s IH]; [reflexivity|].
  rewrite !str_app_cons, IH. reflexivity.
Qed.

Lemma prefix_app (p r : string) : String.prefix p (p +:+ r) = true.
Proof.
  induction p as [|c p IH]; [destruct r; reflexivity|].
  rewrite str_app_cons. simpl.
  destruct (ascii_dec c c) as [_|Hne]; [exact IH|congruence].
Qed.

Lemma contains_unfold (p s : string) :
  contains p s =
  String.prefix p s ||
  match s with EmptyString => false | String _ s' => contains p s' end.
Proof. destruct s; reflexivity. Qed.

(** A string that occurs between two others is found by [contains]. *)
Lemma contains_infix (l p r : string) : contains p (l +:+ p +:+ r) = true.
Proof.
  induction l as [|c l IH].
  - change ("" +:+ p +:+ r) with (p +:+ r).
    rewrite contains_unfold, prefix_app. reflexivity.
  - rewrite str_app_cons, contains_unfold, IH. apply orb_true_r.
Qed.

Lemma concat_cons_cons (sep x y : string) (l : list string) :
  String.concat sep (x :: y :: l) = x +:+ sep +:+ String.concat sep (y :: l).
Proof. reflexivity. Qed.

Lemma concat_app_sep (sep : string) (a b : list string) :
  exists m,
    String.concat sep (a ++ b) =
    String.concat sep a +:+ m +:+ String.concat sep b.
Proof.
  induction a as [|x a IH].
  - exists "". reflexivity.
  - destruct a as [|y a].
    + destruct b as [|z b].
      * exists "". simpl. rewrite str_app_nil_r. reflexivity.
      * exists sep. reflexivity.
    + destruct IH as [m IH]. exists m.
      change ((x :: y :: a) ++ b) with (x :: y :: (a ++ b)).
      rewrite !concat_cons_cons.
      change (y :: a ++ b) with ((y :: a) ++ b). rewrite IH.
      rewrite !str_app_assoc. reflexivity.
Qed.

(** The join of a run of consecutive words occurs in the join of all. *)
Lemma contains_concat_infix (sep : string) (a w b : list string) :
  contains (String.concat sep w) (String.concat sep (a ++ w ++ b)) = true.
Proof.
  destruct (concat_app_sep sep a (w ++ b)) as [m1 H1].
  destruct (concat_app_sep sep w b) as [m2 H2].
  rewrite H1, H2.
  rewrite <- (str_app_assoc (String.concat sep a) m1).
  apply contains_infix.
Qed.

Lemma py_slice_infix {A} (l : list A) (lo hi : Z) :
  exists a b, l = a ++ py_slice l lo hi ++ b.
Proof.
  unfold py_slice.
  set (i := Z.to_nat (py_index (Z.of_nat (length l)) lo)).
  set (k := Z.to_nat _).
  exists (take i l), (drop k (drop i l)).
  rewrite (take_drop k), (take_drop i). reflexivity.
Qed.

Lemma ngrams_contained (words : list string) (n : Z) (p : string) :
  In p (ngrams words n) ->
  contains p (String.concat " " words) = true.
Proof.
  unfold ngrams. intros Hin. apply in_map_iff in Hin as (i & <- & _).
  destruct (py_slice_infix words i (i + n)) as (a & b & Hsplit).
  rewrite Hsplit at 2. apply contains_concat_infix.
Qed.

(** The keys of the frequency dictionary are phrases that were counted. *)
Lemma bump_keys (p q : string) (c : nat) (freq : list (string * nat)) :
  In (q, c) (bump p freq) -> q = p \/ exists c', In (q, c') freq.
Proof.
  induction freq as [|[r d] freq IH]; simpl.
  - intros [Heq|[]]. left. congruence.
  - destruct (String.eqb_spec p r) as [->|Hne]; simpl.
    + intros [Heq|Hin]; [left; congruence|right; eauto].
    + intros [Heq|Hin]; [right; exists c; left; exact Heq|].
      destruct (IH Hin) as [->|[c' Hc']]; [left; reflexivity|right; eauto].
Qed.

Lemma count_freq_keys_from (phrases : list string)
    (freq : list (string * nat)) (q : string) (c : nat) :
  In (q, c) (fold_left (fun f p => bump p f) phrases freq) ->
  In q phrases \/ exists c', In (q, c') freq.
Proof.
  revert freq c. induction phrases as [|p phrases IH]; intros freq c; simpl.
  - eauto.
  - intros Hin. destruct (IH _ _ Hin) as [Hq|[c' Hc']]; [auto|].
    destruct (bump_keys _ _ _ _ Hc') as [->|?]; auto.
Qed.

Lemma count_freq_keys (phrases : list string) (q : string) (c : nat) :
  In (q, c) (count_freq phrases) -> In q phrases.
Proof.
  intros Hin. destruct (count_freq_keys_from _ _ _ _ Hin) as [?|[c' []]].
  assumption.
Qed.

Lemma candidate_phrases_ngrams (text : string) (n : Z) (p : string) :
  In p (candidate_phrases text n) -> In p (ngrams (tokenize_words text) n).
Proof.
  unfold candidate_phrases.
  set (items := sorted_by item_le (count_freq (ngrams (tokenize_words text) n))).
  assert (Hitems : forall l, In p (map fst l) -> incl l items ->
                             In p (ngrams (tokenize_words text) n)).
  { intros l Hin Hincl. apply in_map_iff in Hin as ([q c] & <- & Hqc).
    apply Hincl in Hqc. apply list_elem_of_In in Hqc.
    unfold items in Hqc. rewrite sorted_by_perm in Hqc.
    apply list_elem_of_In in Hqc. exact (count_freq_keys _ _ _ Hqc). }
  destruct (_ <? 10); intros Hin; apply filter_In in Hin as [Hin _].
  - apply (Hitems items Hin). apply incl_refl.
  - apply (Hitems _ Hin). intros x Hx. apply filter_In in Hx. tauto.
Qed.

Lemma extract_phrases_ngrams (text : string) (n top_k : Z) (p : string) :
  In p (extract_phrases text n top_k) ->
  In p (ngrams (tokenize_words text) n).
Proof.
  intros Hin. apply candidate_phrases_ngrams.
  apply list_elem_of_In. apply list_elem_of_In in Hin.
  unfold extract_phrases in Hin.
  eapply elem_of_sublist; [|apply (rerank_sublist 2)].
  eapply elem_of_sublist; [exact Hin|apply py_slice_prefix_sublist].
Qed.

(** ** Phrase coverage of a text against itself *)

Lemma filter_all {A} (f : A -> bool) (l : list A) :
  (forall x, In x l -> f x = true) -> List.filter f l = l.
Proof.
  induction l as [|x l IH]; simpl; intros Hall; [reflexivity|].
  rewrite (Hall x) by auto. rewrite IH by auto. reflexivity.
Qed.

Lemma filter_none {A} (f : A -> bool) (l : list A) :
  (forall x, In x l -> f x = true) ->
  List.filter (fun x => negb (f x)) l = [].
Proof.
  induction l as [|x l IH]; simpl; intros Hall; [reflexivity|].
  rewrite (Hall x) by auto. simpl. auto.
Qed.

Lemma ratio_same (n : nat) : n <> 0 -> Qeq (ratio n n) 1.
Proof.
  destruct n as [|k]; [congruence|]. intros _.
  unfold ratio, Qeq. cbn [Qnum Qden]. lia.
Qed.

(** C2, as stated, fails: a phrase joins three kept tokens with single
    spaces, while the text may hold a dropped word between them.  Here the
    only phrase is "python sql server", which is no substring of the text,
    and the coverage of the text against itself is 0. *)
Lemma self_coverage_counterexample :
  job_phrases "python and sql server" = [ "python sql server" ] /\
  ~ Qeq (fst (fst (phrase_coverage "python and sql server"
                                   "python and sql server"))) 1.
Proof. split; [vm_compute; reflexivity|]. vm_compute. discriminate. Qed.

(** C2 (amended): for every text whose normalised form is exactly its kept
    tokens joined by single spaces (the tokenizer drops nothing from it), if
    the phrase list (window 3, top_k 25) is non-empty then
    [phrase_coverage(t, t)] has coverage exactly 1: every phrase is a
    substring of the normalised text and none is missing. *)
Theorem self_coverage_when_tokens_join (text : string) :
  normalize (Some text) = String.concat " " (tokenize_words text) ->
  job_phrases text <> [] ->
  Qeq (fst (fst (phrase_coverage text text))) 1 /\
  snd (fst (phrase_coverage text text)) = job_phrases text /\
  snd (phrase_coverage text text) = [].
Proof.
  intros Hjoin Hne.
  assert (Hall : forall p, In p (job_phrases text) ->
                           contains p (normalize (Some text)) = true).
  { intros p Hin. rewrite Hjoin.
    apply (ngrams_contained _ 3). exact (extract_phrases_ngrams _ _ _ _ Hin). }
  unfold phrase_coverage. cbn [fst snd].
  rewrite (filter_all _ _ Hall), (filter_none _ _ Hall).
  split; [|split; reflexivity].
  apply ratio_same. destruct (job_phrases text); [congruence|discriminate].
Qed.

Lemma self_coverage_when_tokens_join_witness :
  Qeq (fst (fst (phrase_coverage "Python  SQL server windows"
                                 "Python  SQL server windows"))) 1 /\
  snd (fst (phrase_coverage "Python  SQL server windows"
                            "Python  SQL server windows")) =
    job_phrases "Python  SQL server windows" /\
  snd (phrase_coverage "Python  SQL server windows"
                       "Python  SQL server windows") = [].
Proof.
  apply (self_coverage_when_tokens_join "Python  SQL server windows").
  - vm_compute. reflexivity.
  - vm_compute. discriminate.
Defined.

(** ** Tool mentions in the bullet rewrite *)

Lemma no_space_lower (s : string) : no_space (lower s) = no_space s.
Proof.
  induction s as [|c s IH]; simpl; [reflexivity|].
  rewrite isspace_lower_char, IH. reflexivity.
Qed.

Lemma lower_app (s t : string) : lower (s +:+ t) = lower s +:+ lower t.
Proof.
  induction s as [|c s IH]; [reflexivity|].
  rewrite str_app_cons. simpl. rewrite IH. reflexivity.
Qed.

Section KeepWord.

(** A non-empty word [x] without whitespace. *)
Variable x : string.
Hypothesis x_no_space : no_space x = true.
Hypothesis x_not_empty : x <> "".

Lemma sub_ws_word (b : bool) (r : string) :
  exists r', sub_ws_from b (x +:+ r) = x +:+ r'.
Proof.
  clear x_not_empty. revert b x_no_space.
  induction x as [|c w IH]; intros b Hns.
  - exists (sub_ws_from b r). reflexivity.
  - simpl in Hns. apply andb_true_iff in Hns as [Hc Hw].
    apply negb_true_iff in Hc.
    destruct (IH false Hw) as [r' Hr'].
    exists r'. rewrite str_app_cons. simpl. rewrite Hc, Hr'. reflexivity.
Qed.

Lemma sub_ws_keeps_word (b : bool) (l r : string) :
  exists l' r', sub_ws_from b (l +:+ x +:+ r) = l' +:+ x +:+ r'.
Proof.
  revert b. induction l as [|c l IH]; intros b.
  - destruct (sub_ws_word b r) as [r' Hr']. exists "", r'. exact Hr'.
  - rewrite str_app_cons. simpl.
    destruct (isspace c); [destruct b|].
    + apply IH.
    + destruct (IH true) as (l' & r' & H). exists (String " " l'), r'.
      rewrite H. reflexivity.
    + destruct (IH false) as (l' & r' & H). exists (String c l'), r'.
      rewrite H. reflexivity.
Qed.

Lemma lstrip_keeps_word (l r : string) :
  exists l', lstrip (l +:+ x +:+ r) = l' +:+ x +:+ r.
Proof.
  induction l as [|c l IH].
  - exists "". change ("" +:+ x +:+ r) with (x +:+ r).
    apply lstrip_fixed.
    destruct x as [|c w]; [congruence|].
    simpl in x_no_space. apply andb_true_iff in x_no_space as [Hc _].
    apply negb_true_iff in Hc. exact Hc.
  - rewrite str_app_cons. simpl. destruct (isspace c).
    + exact IH.
    + exists (String c l). reflexivity.
Qed.

Lemma rstrip_word (r : string) : exists r', rstrip (x +:+ r) = x +:+ r'.
Proof.
  clear x_not_empty. revert x_no_space.
  induction x as [|c w IH]; intros Hns.
  - exists (rstrip r). reflexivity.
  - simpl in Hns. apply andb_true_iff in Hns as [Hc Hw].
    apply negb_true_iff in Hc.
    destruct (IH Hw) as [r' Hr'].
    exists r'. rewrite str_app_cons. simpl. rewrite Hc, Hr'. reflexivity.
Qed.

Lemma rstrip_keeps_word (l r : string) :
  exists r', rstrip (l +:+ x +:+ r) = l +:+ x +:+ r'.
Proof.
  induction l as [|c l IH].
  - apply rstrip_word.
  - destruct IH as [r' Hr']. exists r'.
    rewrite str_app_cons. simpl. rewrite Hr'.
    replace (is_empty (l +:+ x +:+ r')) with false.
    + rewrite andb_false_r. reflexivity.
    + destruct l; [|reflexivity].
      destruct x; [congruence|reflexivity].
Qed.

(** Normalising a text keeps an occurrence of such a word, lower-cased. *)
Lemma normalize_keeps_word (l r : string) :
  contains (lower x) (normalize (Some (l +:+ x +:+ r))) = true.
Proof.
  unfold normalize, sub_ws, strip.
  destruct (sub_ws_keeps_word false l r) as (l1 & r1 & ->).
  destruct (lstrip_keeps_word l1 r1) as (l2 & ->).
  destruct (rstrip_keeps_word l2 r1) as (r2 & ->).
  rewrite !lower_app. apply contains_infix.
Qed.

End KeepWord.

Lemma in_list_In (w : string) (l : list string) :
  in_list w l = true <-> In w l.
Proof.
  unfold in_list. rewrite existsb_exists. split.
  - intros (y & Hin & Heq). apply String.eqb_eq in Heq. congruence.
  - intros Hin. exists w. split; [exact Hin|apply String.eqb_refl].
Qed.

Lemma render_tool_sql : render_tool "sql" = "SQL".
Proof. vm_compute. reflexivity. Qed.

Lemma render_tool_other (kw : string) : kw <> "sql" -> render_tool kw = kw.
Proof.
  intros Hne. unfold render_tool.
  destruct (String.eqb_spec kw "sql"); [contradiction|reflexivity].
Qed.

Lemma lower_render_tool (kw : string) : lower (render_tool kw) = lower kw.
Proof.
  unfold render_tool. destruct (String.eqb_spec kw "sql") as [->|_];
    reflexivity.
Qed.

(** A keyword of the tool subset is a non-empty word without whitespace,
    and so is the way it is rendered. *)
Lemma tool_keyword_word (kw : string) :
  in_list (lower kw) TOOL_KEYWORDS = true ->
  no_space (render_tool kw) = true /\ render_tool kw <> "" /\ kw <> "".
Proof.
  intros Htool. apply in_list_In in Htool.
  assert (Hlow : no_space (lower kw) = true /\ lower kw <> "").
  { unfold TOOL_KEYWORDS in Htool. simpl in Htool.
    repeat (destruct Htool as [<-|Htool]; [split; [reflexivity|discriminate]|]).
    destruct Htool. }
  destruct Hlow as [Hns Hne].
  rewrite <- lower_render_tool in Hns, Hne. rewrite no_space_lower in Hns.
  split; [exact Hns|]. split.
  - intros Heq. rewrite Heq in Hne. apply Hne. reflexivity.
  - intros ->. apply Hne. reflexivity.
Qed.

(** The bullet with a tool mention appended never equals the bullet: the
    selected keyword does not occur in the normalised bullet. *)
Lemma tool_suggestion_differs (b : string) (target_keywords : list string)
    (kw : string) :
  select_kw b target_keywords = Some kw ->
  in_list (lower kw) TOOL_KEYWORDS = true ->
  tighten b +:+ " (Tools used where applicable: " +:+ render_tool kw +:+ ".)"
  <> b.
Proof.
  intros Hsel Htool Heq.
  apply select_kw_absent in Hsel as (Habs & _ & _).
  destruct (tool_keyword_word kw Htool) as (Hns & Hne & _).
  pose proof (normalize_keeps_word (render_tool kw) Hns Hne
                (tighten b +:+ " (Tools used where applicable: ") ".)") as Hin.
  rewrite str_app_assoc, Heq, lower_render_tool in Hin. congruence.
Qed.

Lemma safe_rewrite_bullet_tool (bullet : string)
    (target_keywords : list string) (kw : string) :
  20 <= String.length (strip bullet) ->
  select_kw (strip bullet) target_keywords = Some kw ->
  in_list (lower kw) TOOL_KEYWORDS = true ->
  safe_rewrite_bullet bullet target_keywords =
  Some {| target := "bullet";
          original := strip bullet;
          suggestion :=
            tighten (strip bullet) +:+ " (Tools used where applicable: " +:+
            render_tool kw +:+ ".)";
          rationale := tool_rationale kw;
          needs_confirmation := true |}.
Proof.
  intros Hlen Hsel Htool. unfold safe_rewrite_bullet.
  replace (is_empty (strip bullet)) with false
    by (destruct (strip bullet); [simpl in Hlen; lia|reflexivity]).
  replace (String.length (strip bullet) <? 20) with false
    by (symmetry; apply Nat.ltb_ge; exact Hlen).
  cbn [orb]. rewrite Hsel.
  replace (is_empty kw) with false
    by (destruct kw; [|reflexivity];
        destruct (tool_keyword_word "" Htool) as (_ & _ & []); reflexivity).
  rewrite Htool.
  destruct (String.eqb_spec
              (tighten (strip bullet) +:+ " (Tools used where applicable: " +:+
               render_tool kw +:+ ".)") (strip bullet)) as [Heq|_];
    [|reflexivity].
  exfalso. exact (tool_suggestion_differs _ _ _ Hsel Htool Heq).
Qed.

(** C8: whenever the injection loop selects a keyword of the tool subset
    (python, sql, api, git), the rewrite emits a [SuggestedEdit] with
    [needs_confirmation = true] whose suggestion is the tightened bullet
    followed by the parenthetical tool mention, "sql" being rendered "SQL";
    and an emitted edit with [needs_confirmation = false] carries no tool
    mention: its suggestion is the tightened bullet alone or followed by a
    focus mention of a keyword outside the tool subset. *)
Theorem tool_mention_needs_confirmation (bullet : string)
    (target_keywords : list string) :
  (forall kw,
     20 <= String.length (strip bullet) ->
     select_kw (strip bullet) target_keywords = Some kw ->
     in_list (lower kw) TOOL_KEYWORDS = true ->
     exists e,
       safe_rewrite_bullet bullet target_keywords = Some e /\
       needs_confirmation e = true /\
       suggestion e =
         tighten (strip bullet) +:+ " (Tools used where applicable: " +:+
         render_tool kw +:+ ".)") /\
  (forall e,
     safe_rewrite_bullet bullet target_keywords = Some e ->
     needs_confirmation e = false ->
     suggestion e = tighten (strip bullet) \/
     exists kw,
       select_kw (strip bullet) target_keywords = Some kw /\
       in_list (lower kw) TOOL_KEYWORDS = false /\
       suggestion e = tighten (strip bullet) +:+ " (Focus: " +:+ kw +:+ ".)") /\
  render_tool "sql" = "SQL" /\
  (forall kw, kw <> "sql" -> render_tool kw = kw).
Proof.
  split; [|split; [|split; [exact render_tool_sql|exact render_tool_other]]].
  - intros kw Hlen Hsel Htool.
    rewrite (safe_rewrite_bullet_tool _ _ _ Hlen Hsel Htool).
    eexists. split; [reflexivity|]. split; reflexivity.
  - intros e. unfold safe_rewrite_bullet.
    destruct (is_empty (strip bullet) || (String.length (strip bullet) <? 20));
      [discriminate|].
    destruct (select_kw (strip bullet) target_keywords) as [kw|].
    + destruct (is_empty kw).
      * destruct (String.eqb _ _); [discriminate|].
        intros [= <-] _. left. reflexivity.
      * destruct (in_list (lower kw) TOOL_KEYWORDS) eqn:Htool;
          (destruct (String.eqb _ _); [discriminate|]);
          intros [= <-]; simpl; intros Hnc; [discriminate|].
        right. exists kw. auto.
    + destruct (String.eqb _ _); [discriminate|].
      intros [= <-] _. left. reflexivity.
Qed.

Lemma tool_mention_needs_confirmation_witness :
  exists e,
    safe_rewrite_bullet
      "I just handled tickets very quickly and efficiently for the helpdesk team"
      [ "automation in general"; "sql" ] = Some e /\
    needs_confirmation e = true /\
    suggestion e =
      "I handled tickets quickly and efficiently for the helpdesk team (Tools used where applicable: SQL.)".
Proof.
  destruct (tool_mention_needs_confirmation
    "I just handled tickets very quickly and efficiently for the helpdesk team"
    [ "automation in general"; "sql" ]) as (Htool & _).
  apply (Htool "sql").
  - vm_compute. lia.
  - vm_compute. reflexivity.
  - vm_compute. reflexivity.
Defined.

Example focus_mention_no_confirmation :
  option_map (fun e => (suggestion e, needs_confirmation e))
    (safe_rewrite_bullet
       "I just handled tickets very quickly and efficiently for the helpdesk team"
       [ "automation" ])
  = Some ("I handled tickets quickly and efficiently for the helpdesk team (Focus: automation.)",
          false).
Proof. vm_compute. reflexivity. Qed.

(** * Further properties *)

(** ** Sorting by a key *)

Section SortedBy.

Context {A : Type} (leb : A -> A -> bool).
Hypothesis leb_total : forall x y, leb x y = true \/ leb y x = true.
Hypothesis leb_trans :
  forall x y z, leb x y = true -> leb y z = true -> leb x z = true.

Lemma insert_by_sorted (x : A) (l : list A) :
  StronglySorted (fun a b => leb a b = true) l ->
  StronglySorted (fun a b => leb a b = true) (insert_by leb x l).
Proof.
  induction 1 as [|y l Hsorted IH Hall]; simpl.
  - repeat constructor.
  - destruct (leb x y) eqn:Hxy.
    + constructor; [constructor; assumption|].
      constructor; [exact Hxy|].
      eapply Forall_impl; [exact Hall|].
      intros z Hyz. exact (leb_trans _ _ _ Hxy Hyz).
    + constructor; [exact IH|].
      rewrite insert_by_perm. constructor; [|exact Hall].
      destruct (leb_total x y) as [H|H]; [congruence|exact H].
Qed.

Lemma sorted_by_sorted (l : list A) :
  StronglySorted (fun a b => leb a b = true) (sorted_by leb l).
Proof.
  induction l as [|x l IH]; simpl; [constructor|].
  apply insert_by_sorted. exact IH.
Qed.

End SortedBy.

Lemma string_leb_trans (a b c : string) :
  String.leb a b = true -> String.leb b c = true -> String.leb a c = true.
Proof.
  intros Hab Hbc. apply Is_true_true.
  apply Is_true_true in Hab, Hbc.
  exact (transitivity (R := String.le) Hab Hbc).
Qed.

Lemma lower_le_total (a b : string) :
  lower_le a b = true \/ lower_le b a = true.
Proof. apply String.leb_total. Qed.

Lemma lower_le_trans (a b c : string) :
  lower_le a b = true -> lower_le b c = true -> lower_le a c = true.
Proof. apply string_leb_trans. Qed.

Lemma item_le_total (x y : string * nat) :
  item_le x y = true \/ item_le y x = true.
Proof.
  unfold item_le.
  destruct (Nat.ltb_spec (snd y) (snd x)); [left; reflexivity|].
  destruct (Nat.ltb_spec (snd x) (snd y)); [right; reflexivity|].
  assert (Heq : snd x = snd y) by lia. rewrite Heq, Nat.eqb_refl. simpl.
  apply String.leb_total.
Qed.

Lemma item_le_trans (x y z : string * nat) :
  item_le x y = true -> item_le y z = true -> item_le x z = true.
Proof.
  unfold item_le. intros Hxy Hyz.
  apply orb_true_iff in Hxy as [Hxy|Hxy]; apply orb_true_iff in Hyz as [Hyz|Hyz];
    try apply Nat.ltb_lt in Hxy; try apply Nat.ltb_lt in Hyz;
    try (apply andb_true_iff in Hxy as [Hxy Hxy']; apply Nat.eqb_eq in Hxy);
    try (apply andb_true_iff in Hyz as [Hyz Hyz']; apply Nat.eqb_eq in Hyz);
    apply orb_true_iff.
  - left. apply Nat.ltb_lt. lia.
  - left. apply Nat.ltb_lt. lia.
  - left. apply Nat.ltb_lt. lia.
  - right. apply andb_true_iff. split; [apply Nat.eqb_eq; lia|].
    exact (string_leb_trans _ _ _ Hxy' Hyz').
Qed.

(** ** The keyword matcher *)

Lemma extract_keywords_In (text : string) (keyword_list : list string)
    (kw : string) :
  In kw (extract_keywords text keyword_list) <->
  In kw keyword_list /\
  search_word (lower kw) (normalize (Some text)) = true.
Proof.
  rewrite extract_keywords_sorted_set.
  rewrite <- list_elem_of_In, elem_of_sorted_set.
  unfold found_set. rewrite elem_of_list_to_set, list_elem_of_In.
  exact (filter_In
           (fun kw => search_word (lower kw) (normalize (Some text)))
           kw keyword_list).
Qed.

(** X1: [extract_keywords] returns exactly the keywords of the list whose
    lower-case form is found in the normalised text by the word-boundary
    search, each once, in ascending order of their lower-case forms. *)
Theorem extract_keywords_sound_complete (text : string)
    (keyword_list : list string) :
  (forall kw,
     In kw (extract_keywords text keyword_list) <->
     In kw keyword_list /\
     search_word (lower kw) (normalize (Some text)) = true) /\
  NoDup (extract_keywords text keyword_list) /\
  StronglySorted lower_order (extract_keywords text keyword_list).
Proof.
  split; [|split].
  - intros kw. apply extract_keywords_In.
  - rewrite extract_keywords_sorted_set. apply sorted_set_NoDup.
  - apply (sorted_by_sorted lower_le lower_le_total lower_le_trans).
Qed.

Lemma match_literal_prefix (k s : string) (prev prev' : option ascii)
    (rest : string) :
  match_literal Ascii.eqb k s prev = Some (prev', rest) -> s = k +:+ rest.
Proof.
  revert s prev. induction k as [|a k IH]; intros s prev; simpl.
  - intros [= _ <-]. reflexivity.
  - destruct s as [|b s]; [discriminate|].
    destruct (Ascii.eqb_spec a b) as [<-|_]; [|discriminate].
    intros Hm. rewrite (IH _ _ Hm). reflexivity.
Qed.

Lemma match_word_here_prefix (k : string) (prev : option ascii)
    (s rest : string) :
  match_word_here Ascii.eqb k prev s = Some rest -> String.prefix k s = true.
Proof.
  unfold match_word_here.
  destruct (at_boundary prev s); [|discriminate].
  destruct (match_literal Ascii.eqb k s prev) as [[prev' r]|] eqn:Hm;
    [|discriminate].
  intros _. rewrite (match_literal_prefix _ _ _ _ _ Hm). apply prefix_app.
Qed.

(** A word-boundary match is in particular an occurrence as a substring. *)
Lemma search_word_from_contains (k : string) (prev : option ascii) (s : string) :
  search_word_from k prev s = true -> contains k s = true.
Proof.
  revert prev. induction s as [|c s IH]; intros prev;
    rewrite contains_unfold; cbn [search_word_from];
    destruct (match_word_here Ascii.eqb k prev _) eqn:Hhere.
  - intros _. rewrite (match_word_here_prefix _ _ _ _ Hhere). reflexivity.
  - discriminate.
  - intros _. rewrite (match_word_here_prefix _ _ _ _ Hhere). reflexivity.
  - intros Hs. rewrite (IH _ Hs). apply orb_true_r.
Qed.

(** X2: a keyword that the matcher finds in a bullet is never chosen for
    injection into that bullet, whatever list it is looked for in: the
    substring test of the injection loop accepts every word-boundary match. *)
Theorem found_keyword_not_injected (b kw : string)
    (keyword_list target_keywords : list string) :
  In kw (extract_keywords b keyword_list) ->
  contains (lower kw) (normalize (Some b)) = true /\
  select_kw b target_keywords <> Some kw.
Proof.
  intros Hfound.
  apply extract_keywords_In in Hfound as [_ Hsearch].
  apply search_word_from_contains in Hsearch.
  split; [exact Hsearch|].
  intros Hsel. apply select_kw_absent in Hsel as [Habs _]. congruence.
Qed.

Lemma found_keyword_not_injected_witness :
  contains (lower "SQL")
    (normalize (Some "Wrote SQL reports for the service desk")) = true /\
  select_kw "Wrote SQL reports for the service desk" [ "SQL"; "python" ]
    <> Some "SQL".
Proof.
  apply (found_keyword_not_injected _ _ [ "python"; "SQL" ]).
  vm_compute. auto.
Defined.

(** X3: the matcher, the red-flag scan, the tokenizer and the phrase
    extractor see a text only through its normal form: two texts with the
    same normal form (same words up to letter case and whitespace layout)
    give the same keywords, red flags, tokens, phrases and coverage. *)
Theorem same_normal_form_same_results (text1 text2 : string) :
  normalize (Some text1) = normalize (Some text2) ->
  (forall K, extract_keywords text1 K = extract_keywords text2 K) /\
  find_red_flags text1 = find_red_flags text2 /\
  tokenize_words text1 = tokenize_words text2 /\
  (forall n top_k, extract_phrases text1 n top_k = extract_phrases text2 n top_k) /\
  (forall job_text,
     phrase_coverage text1 job_text = phrase_coverage text2 job_text) /\
  (forall resume_text,
     phrase_coverage resume_text text1 = phrase_coverage resume_text text2).
Proof.
  intros Hnorm.
  assert (Htok : tokenize_words text1 = tokenize_words text2)
    by (unfold tokenize_words; rewrite Hnorm; reflexivity).
  assert (Hphr : forall n top_k,
             extract_phrases text1 n top_k = extract_phrases text2 n top_k)
    by (intros; unfold extract_phrases, candidate_phrases; rewrite Htok;
        reflexivity).
  repeat split.
  - intros K. unfold extract_keywords. rewrite Hnorm. reflexivity.
  - unfold find_red_flags. rewrite Hnorm. reflexivity.
  - exact Htok.
  - exact Hphr.
  - intros job_text. unfold phrase_coverage. rewrite Hnorm. reflexivity.
  - intros resume_text. unfold phrase_coverage, job_phrases.
    rewrite Hphr. reflexivity.
Qed.

Lemma same_normal_form_same_results_witness :
  (forall K, extract_keywords "  Python   and SQL " K =
             extract_keywords "python AND sql" K) /\
  find_red_flags "  Python   and SQL " = find_red_flags "python AND sql" /\
  tokenize_words "  Python   and SQL " = tokenize_words "python AND sql" /\
  (forall n top_k, extract_phrases "  Python   and SQL " n top_k =
                   extract_phrases "python AND sql" n top_k) /\
  (forall job_text,
     phrase_coverage "  Python   and SQL " job_text =
     phrase_coverage "python AND sql" job_text) /\
  (forall resume_text,
     phrase_coverage resume_text "  Python   and SQL " =
     phrase_coverage resume_text "python AND sql").
Proof.
  apply (same_normal_form_same_results "  Python   and SQL " "python AND sql").
  vm_compute. reflexivity.
Defined.

(** ** The tokenizer *)

Lemma all_chars_app (P : ascii -> bool) (s t : string) :
  all_chars P (s +:+ t) = all_chars P s && all_chars P t.
Proof.
  induction s as [|c s IH]; [reflexivity|].
  rewrite str_app_cons. simpl. rewrite IH. apply andb_assoc.
Qed.

Lemma is_empty_app_char (s : string) (c : ascii) :
  is_empty (s +:+ String c "") = false.
Proof. destruct s; reflexivity. Qed.

(** Every run is a non-empty string of characters that satisfy [P]. *)
Lemma runs_from_runs (P : ascii -> bool) (s cur w : string) :
  all_chars P cur = true ->
  In w (runs_from P cur s) ->
  w <> "" /\ all_chars P w = true.
Proof.
  revert cur. induction s as [|c s IH]; intros cur Hcur; simpl.
  - unfold flush. destruct cur; simpl; [tauto|].
    intros [<-|[]]. split; [discriminate|exact Hcur].
  - destruct (P c) eqn:Hc.
    + apply IH. rewrite all_chars_app, Hcur. simpl. rewrite Hc. reflexivity.
    + intros Hin. apply in_app_or in Hin as [Hin|Hin].
      * unfold flush in Hin. destruct cur; simpl in Hin; [tauto|].
        destruct Hin as [<-|[]]. split; [discriminate|exact Hcur].
      * apply (IH ""); [reflexivity|exact Hin].
Qed.

Lemma token_char_lower (c : ascii) : is_token_char c = true -> lower_char c = c.
Proof.
  destruct c as [[] [] [] [] [] [] [] []]; vm_compute;
    first [reflexivity | discriminate].
Qed.

Lemma token_char_no_space (c : ascii) :
  is_token_char c = true -> isspace c = false.
Proof.
  destruct c as [[] [] [] [] [] [] [] []]; vm_compute;
    first [reflexivity | discriminate].
Qed.

Lemma token_chars_lower (w : string) :
  all_chars is_token_char w = true -> lower w = w.
Proof.
  induction w as [|c w IH]; simpl; [reflexivity|].
  intros H. apply andb_true_iff in H as [Hc Hw].
  rewrite (token_char_lower c Hc), (IH Hw). reflexivity.
Qed.

Lemma token_chars_no_space (w : string) :
  all_chars is_token_char w = true -> no_space w = true.
Proof.
  induction w as [|c w IH]; simpl; [reflexivity|].
  intros H. apply andb_true_iff in H as [Hc Hw].
  rewrite (token_char_no_space c Hc), (IH Hw). reflexivity.
Qed.

Lemma tokenize_words_In (text w : string) :
  In w (tokenize_words text) ->
  3 <= String.length w /\ (w ∉ STOPWORDS) /\
  all_chars is_token_char w = true.
Proof.
  unfold tokenize_words. intros Hin. apply filter_In in Hin as [Hin Hkeep].
  apply andb_true_iff in Hkeep as [Hkeep Hlen].
  apply andb_true_iff in Hkeep as [_ Hstop].
  apply Nat.ltb_lt in Hlen. apply negb_true_iff in Hstop.
  apply bool_decide_eq_false in Hstop.
  split; [lia|]. split; [exact Hstop|].
  unfold findall_tokens in Hin.
  exact (proj2 (runs_from_runs is_token_char _ "" w eq_refl Hin)).
Qed.

(** X4: every token of [tokenize_words] has at least three characters, all
    of them from the class [a-z0-9+#.] (so the token is in lower case and
    holds no whitespace), and is no stopword. *)
Theorem tokenize_words_tokens (text : string) :
  Forall (fun w => 3 <= String.length w /\ (w ∉ STOPWORDS) /\
                   all_chars is_token_char w = true /\
                   lower w = w /\ no_space w = true)
         (tokenize_words text).
Proof.
  apply List.Forall_forall. intros w Hin.
  apply tokenize_words_In in Hin as (Hlen & Hstop & Hchars).
  split; [exact Hlen|]. split; [exact Hstop|]. split; [exact Hchars|].
  split; [apply token_chars_lower|apply token_chars_no_space]; exact Hchars.
Qed.

Example tokenize_words_example :
  tokenize_words "The C++ and .NET teams will maintain Node.js, SQL & an API"
  = [ "c++"; ".net"; "teams"; "node.js"; "sql"; "api" ].
Proof. vm_compute. reflexivity. Qed.

(** ** Splitting and joining phrases *)

Lemma runs_from_word (cur w r : string) :
  no_space w = true ->
  runs_from (fun c => negb (isspace c)) cur (w +:+ r) =
  runs_from (fun c => negb (isspace c)) (cur +:+ w) r.
Proof.
  revert cur. induction w as [|c w IH]; intros cur Hw.
  - rewrite str_app_nil_r. reflexivity.
  - simpl in Hw. apply andb_true_iff in Hw as [Hc Hw].
    rewrite str_app_cons. simpl. rewrite Hc, (IH _ Hw), str_app_assoc.
    reflexivity.
Qed.

Lemma runs_from_space (cur r : string) :
  runs_from (fun c => negb (isspace c)) cur (String " " r) =
  flush cur ++ runs_from (fun c => negb (isspace c)) "" r.
Proof. reflexivity. Qed.

Lemma flush_word (w : string) : w <> "" -> flush w = [w].
Proof. destruct w; [congruence|reflexivity]. Qed.

Lemma split_ws_concat (ws : list string) :
  Forall is_clean_word ws -> split_ws (String.concat " " ws) = ws.
Proof.
  unfold split_ws. induction 1 as [|w ws [Hne Hns] Hws IH]; [reflexivity|].
  destruct ws as [|y ws].
  - change (String.concat " " [w]) with w.
    rewrite <- (str_app_nil_r w) at 1.
    rewrite (runs_from_word "" w "" Hns).
    change (runs_from (fun c => negb (isspace c)) ("" +:+ w) "")
      with (flush w).
    apply flush_word. exact Hne.
  - rewrite concat_cons_cons, (runs_from_word "" w _ Hns).
    change ("" +:+ w) with w.
    change (" " +:+ String.concat " " (y :: ws))
      with (String " " (String.concat " " (y :: ws))).
    rewrite runs_from_space, IH, (flush_word w Hne). reflexivity.
Qed.

Lemma all_chars_no_space (w : string) :
  all_chars (fun c => negb (isspace c)) w = no_space w.
Proof. induction w as [|c w IH]; simpl; [|rewrite IH]; reflexivity. Qed.

(** X5: [split] yields words that are non-empty and hold no whitespace, and
    splitting the space-join of such words gives the words back
    ([" ".join(ws).split() == ws]). *)
Theorem split_join_round_trip :
  (forall s, Forall is_clean_word (split_ws s)) /\
  (forall ws, Forall is_clean_word ws ->
              split_ws (String.concat " " ws) = ws).
Proof.
  split; [|exact split_ws_concat].
  intros s. apply List.Forall_forall. intros w Hin.
  unfold split_ws in Hin.
  destruct (runs_from_runs (fun c => negb (isspace c)) s "" w eq_refl Hin)
    as [Hne Hall].
  split; [exact Hne|]. rewrite <- all_chars_no_space. exact Hall.
Qed.

Lemma split_join_round_trip_witness :
  split_ws (String.concat " " [ "incident"; "management"; "via" ]) =
  [ "incident"; "management"; "via" ].
Proof.
  apply (proj2 split_join_round_trip [ "incident"; "management"; "via" ]).
  repeat constructor; discriminate.
Defined.

Lemma lower_concat (sep : string) (ws : list string) :
  lower sep = sep -> Forall (fun w => lower w = w) ws ->
  lower (String.concat sep ws) = String.concat sep ws.
Proof.
  intros Hsep. induction 1 as [|w ws Hw Hws IH]; [reflexivity|].
  destruct ws as [|y ws]; [exact Hw|].
  rewrite concat_cons_cons, !lower_app, Hw, Hsep, IH. reflexivity.
Qed.

Lemma tokens_clean (text : string) (ws : list string) :
  sublist ws (tokenize_words text) ->
  Forall is_clean_word ws /\ Forall (fun w => lower w = w) ws.
Proof.
  intros Hsub. split; apply List.Forall_forall; intros w Hin;
    apply list_elem_of_In in Hin;
    pose proof (elem_of_sublist _ _ _ Hin Hsub) as Htok;
    apply list_elem_of_In, tokenize_words_In in Htok
      as (Hlen & _ & Hchars).
  - split; [intros ->; simpl in Hlen; lia|].
    apply token_chars_no_space. exact Hchars.
  - apply token_chars_lower. exact Hchars.
Qed.

(** X6: a phrase built from [n >= 1] consecutive tokens of a text splits
    back into those tokens, so its anchor is the first longest of them and
    it passes the relevance filter exactly when one of them is a signal
    word. *)
Theorem ngram_phrase_words (text : string) (n i : nat) :
  1 <= n -> i + n <= length (tokenize_words text) ->
  exists t ts,
    take n (drop i (tokenize_words text)) = t :: ts /\
    ngrams (tokenize_words text) (Z.of_nat n) !! i =
      Some (String.concat " " (t :: ts)) /\
    split_ws (String.concat " " (t :: ts)) = t :: ts /\
    anchor (String.concat " " (t :: ts)) = max_by_len t ts /\
    is_good_phrase (String.concat " " (t :: ts)) =
      existsb (fun w => bool_decide (w ∈ TECH_SIGNAL_WORDS)) (t :: ts).
Proof.
  intros Hn Hin.
  set (words := tokenize_words text) in *.
  destruct (take n (drop i words)) as [|t ts] eqn:Hwin.
  { apply (f_equal length) in Hwin.
    rewrite length_take, length_drop in Hwin. simpl in Hwin. lia. }
  assert (Hsub : sublist (t :: ts) words).
  { rewrite <- Hwin. etransitivity; [apply sublist_take|apply sublist_drop]. }
  destruct (tokens_clean text _ Hsub) as [Hclean Hlower].
  exists t, ts. split; [reflexivity|]. split; [|split; [|split]].
  - unfold ngrams.
    rewrite list_lookup_fmap, py_range_lookup by (fold words; lia).
    simpl. rewrite py_slice_window by exact Hin. rewrite Hwin. reflexivity.
  - apply split_ws_concat. exact Hclean.
  - unfold anchor. rewrite (split_ws_concat _ Hclean). reflexivity.
  - unfold is_good_phrase.
    rewrite (lower_concat " " _ eq_refl Hlower), (split_ws_concat _ Hclean).
    reflexivity.
Qed.

Lemma ngram_phrase_words_witness :
  exists t ts,
    take 3 (drop 1 (tokenize_words "Incident management via ServiceNow")) =
      t :: ts /\
    ngrams (tokenize_words "Incident management via ServiceNow") 3 !! 1 =
      Some (String.concat " " (t :: ts)) /\
    split_ws (String.concat " " (t :: ts)) = t :: ts /\
    anchor (String.concat " " (t :: ts)) = max_by_len t ts /\
    is_good_phrase (String.concat " " (t :: ts)) =
      existsb (fun w => bool_decide (w ∈ TECH_SIGNAL_WORDS)) (t :: ts).
Proof.
  apply (ngram_phrase_words "Incident management via ServiceNow" 3 1).
  - lia.
  - vm_compute. lia.
Defined.

(** ** The frequency dictionary and the ranking *)

Lemma freq_get_bump (p q : string) (freq : list (string * nat)) :
  freq_get (bump p freq) q =
  if String.eqb q p then freq_get freq q + 1 else freq_get freq q.
Proof.
  induction freq as [|[r d] freq IH]; simpl.
  - destruct (String.eqb q p); reflexivity.
  - destruct (String.eqb_spec p r) as [->|Hpr]; simpl.
    + destruct (String.eqb q r); reflexivity.
    + rewrite IH. destruct (String.eqb_spec q r) as [->|Hqr]; [|reflexivity].
      destruct (String.eqb_spec r p); [congruence|reflexivity].
Qed.

Lemma freq_get_fold (phrases : list string) (freq : list (string * nat))
    (q : string) :
  freq_get (fold_left (fun f p => bump p f) phrases freq) q =
  freq_get freq q + count_occ string_dec phrases q.
Proof.
  revert freq. induction phrases as [|p phrases IH]; intros freq; simpl;
    [lia|].
  rewrite IH, freq_get_bump.
  destruct (string_dec p q) as [->|Hne].
  - rewrite String.eqb_refl. lia.
  - destruct (String.eqb_spec q p); [congruence|lia].
Qed.

Lemma bump_keys_NoDup (p : string) (freq : list (string * nat)) :
  NoDup (map fst freq) -> NoDup (map fst (bump p freq)).
Proof.
  induction freq as [|[r d] freq IH]; simpl; intros Hnd.
  - repeat constructor. intros Hin. inversion Hin.
  - apply NoDup_cons in Hnd as [Hr Hnd].
    destruct (String.eqb_spec p r) as [->|Hpr]; simpl.
    + apply NoDup_cons. split; assumption.
    + apply NoDup_cons. split; [|exact (IH Hnd)].
      intros Hin. apply list_elem_of_In, in_map_iff in Hin
        as ([q c] & Hq & Hin).
      simpl in Hq. subst q.
      destruct (bump_keys _ _ _ _ Hin) as [Heq|[c' Hc']]; [congruence|].
      apply Hr, list_elem_of_In, in_map_iff. exists (r, c'). auto.
Qed.

Lemma count_freq_keys_NoDup (phrases : list string) :
  NoDup (map fst (count_freq phrases)).
Proof.
  unfold count_freq.
  assert (Hgen : forall freq, NoDup (map fst freq) ->
            NoDup (map fst (fold_left (fun f p => bump p f) phrases freq))).
  { induction phrases as [|p phrases IH]; intros freq Hnd; simpl;
      [exact Hnd|].
    apply IH, bump_keys_NoDup, Hnd. }
  apply Hgen. constructor.
Qed.

Lemma freq_get_In (freq : list (string * nat)) (q : string) (c : nat) :
  NoDup (map fst freq) -> In (q, c) freq -> freq_get freq q = c.
Proof.
  induction freq as [|[r d] freq IH]; simpl; intros Hnd Hin; [destruct Hin|].
  apply NoDup_cons in Hnd as [Hr Hnd].
  destruct Hin as [[= -> ->]|Hin].
  - rewrite String.eqb_refl. reflexivity.
  - destruct (String.eqb_spec q r) as [->|_]; [|exact (IH Hnd Hin)].
    exfalso. apply Hr, list_elem_of_In, in_map_iff. exists (r, c). auto.
Qed.

Lemma freq_get_positive (freq : list (string * nat)) (q : string) :
  0 < freq_get freq q -> In (q, freq_get freq q) freq.
Proof.
  induction freq as [|[r d] freq IH]; simpl; [lia|].
  destruct (String.eqb_spec q r) as [->|_]; auto.
Qed.

(** X7: the frequency dictionary of [extract_phrases] holds each distinct
    phrase once, with the number of its occurrences in the phrase list. *)
Theorem count_freq_counts_occurrences (phrases : list string) :
  NoDup (map fst (count_freq phrases)) /\
  (forall q, freq_get (count_freq phrases) q = count_occ string_dec phrases q) /\
  (forall q c,
     In (q, c) (count_freq phrases) <->
     In q phrases /\ c = count_occ string_dec phrases q).
Proof.
  assert (Hget : forall q,
             freq_get (count_freq phrases) q = count_occ string_dec phrases q)
    by (intros q; unfold count_freq; rewrite freq_get_fold; reflexivity).
  split; [apply count_freq_keys_NoDup|]. split; [exact Hget|].
  intros q c. split.
  - intros Hin. split; [exact (count_freq_keys _ _ _ Hin)|].
    rewrite <- Hget. symmetry.
    exact (freq_get_In _ _ _ (count_freq_keys_NoDup phrases) Hin).
  - intros [Hin ->]. rewrite <- Hget. apply freq_get_positive.
    rewrite Hget. apply count_occ_In. exact Hin.
Qed.

Lemma filter_sublist_bool {A} (f : A -> bool) (l : list A) :
  sublist (List.filter f l) l.
Proof.
  induction l as [|x l IH]; simpl; [constructor|].
  destruct (f x); constructor; exact IH.
Qed.

Lemma map_sublist {A B} (f : A -> B) (l1 l2 : list A) :
  sublist l1 l2 -> sublist (map f l1) (map f l2).
Proof. induction 1; simpl; constructor; assumption. Qed.

(** The ranked items of a text: the frequency dictionary of its n-grams
    sorted by descending count, then ascending phrase. *)
Lemma candidate_phrases_sublist (text : string) (n : Z) :
  sublist (candidate_phrases text n)
    (map fst (sorted_by item_le (count_freq (ngrams (tokenize_words text) n)))).
Proof.
  unfold candidate_phrases.
  set (items := sorted_by item_le _).
  destruct (_ <? 10).
  - apply filter_sublist_bool.
  - etransitivity; [apply filter_sublist_bool|].
    apply map_sublist, filter_sublist_bool.
Qed.

Lemma extract_phrases_sublist (text : string) (n top_k : Z) :
  sublist (extract_phrases text n top_k) (candidate_phrases text n).
Proof.
  unfold extract_phrases.
  etransitivity; [apply py_slice_prefix_sublist|apply rerank_sublist].
Qed.

(** X8: [extract_phrases] returns its phrases in rank order: they are a
    subsequence of the phrases of the frequency dictionary arranged by
    descending count and, among equal counts, ascending phrase. *)
Theorem extract_phrases_rank_order (text : string) (n top_k : Z) :
  exists ranked,
    Permutation ranked (count_freq (ngrams (tokenize_words text) n)) /\
    StronglySorted item_order ranked /\
    sublist (extract_phrases text n top_k) (map fst ranked).
Proof.
  exists (sorted_by item_le (count_freq (ngrams (tokenize_words text) n))).
  split; [apply sorted_by_perm|]. split.
  - apply (sorted_by_sorted item_le item_le_total item_le_trans).
  - etransitivity;
      [apply extract_phrases_sublist|apply candidate_phrases_sublist].
Qed.

Lemma candidate_phrases_good (text : string) (n : Z) (p : string) :
  In p (candidate_phrases text n) -> is_good_phrase p = true.
Proof.
  unfold candidate_phrases. destruct (_ <? 10); intros Hin;
    apply filter_In in Hin; tauto.
Qed.

Lemma py_slice_prefix_length {A} (l : list A) (k : Z) :
  (0 <= k)%Z -> length (py_slice l 0 k) <= Z.to_nat k.
Proof.
  intros Hk. unfold py_slice. rewrite length_take.
  unfold py_index. rewrite Z.ltb_irrefl.
  destruct (Z.ltb_spec k 0); lia.
Qed.

(** X9: the phrases that [extract_phrases] returns are pairwise distinct
    n-grams of the token list that pass the relevance filter, and for a
    non-negative [top_k] there are at most [top_k] of them. *)
Theorem extract_phrases_distinct_relevant_bounded (text : string)
    (n top_k : Z) :
  NoDup (extract_phrases text n top_k) /\
  (forall p, In p (extract_phrases text n top_k) ->
     is_good_phrase p = true /\ In p (ngrams (tokenize_words text) n)) /\
  ((0 <= top_k)%Z -> length (extract_phrases text n top_k) <= Z.to_nat top_k).
Proof.
  split; [|split].
  - apply (sublist_NoDup _
             (map fst (sorted_by item_le
                         (count_freq (ngrams (tokenize_words text) n))))).
    + rewrite (Permutation_map fst (sorted_by_perm item_le _)).
      apply count_freq_keys_NoDup.
    + etransitivity;
        [apply extract_phrases_sublist|apply candidate_phrases_sublist].
  - intros p Hin. split; [|exact (extract_phrases_ngrams _ _ _ _ Hin)].
    apply (candidate_phrases_good text n).
    apply list_elem_of_In. apply list_elem_of_In in Hin.
    exact (elem_of_sublist _ _ _ Hin (extract_phrases_sublist _ _ _)).
  - intros Hk. unfold extract_phrases. apply py_slice_prefix_length, Hk.
Qed.

(** ** Phrase coverage *)

Lemma ratio_bounds (a b : nat) : a <= b -> Qle 0 (ratio a b) /\ Qle (ratio a b) 1.
Proof.
  intros Hab. destruct b as [|k]; simpl.
  - unfold Qle. simpl. lia.
  - unfold Qle. cbn [Qnum Qden]. split; lia.
Qed.

Lemma filter_length_le {A} (f : A -> bool) (l : list A) :
  length (List.filter f l) <= length l.
Proof. apply sublist_length, filter_sublist_bool. Qed.

Lemma filter_complement_length {A} (f : A -> bool) (l : list A) :
  length (List.filter f l) + length (List.filter (fun x => negb (f x)) l) =
  length l.
Proof.
  induction l as [|x l IH]; simpl; [reflexivity|].
  destruct (f x); simpl; lia.
Qed.

(** X10: [phrase_coverage] splits the job phrases into those that occur in
    the normalised resume (overlap) and those that do not (missing), both in
    rank order; the coverage is the share of the former, between 0 and 1,
    and it is 0 with two empty lists when the posting has no phrase, as for
    every posting with fewer than three tokens. *)
Theorem phrase_coverage_partition (resume_text job_text : string) :
  let cov := fst (fst (phrase_coverage resume_text job_text)) in
  let overlap := snd (fst (phrase_coverage resume_text job_text)) in
  let missing := snd (phrase_coverage resume_text job_text) in
  (forall p, In p overlap <->
     In p (job_phrases job_text) /\
     contains p (normalize (Some resume_text)) = true) /\
  (forall p, In p missing <->
     In p (job_phrases job_text) /\
     contains p (normalize (Some resume_text)) = false) /\
  sublist overlap (job_phrases job_text) /\
  sublist missing (job_phrases job_text) /\
  length overlap + length missing = length (job_phrases job_text) /\
  cov = ratio (length overlap) (length (job_phrases job_text)) /\
  Qle 0 cov /\ Qle cov 1 /\
  (length (tokenize_words job_text) < 3 ->
   cov = 0%Q /\ overlap = [] /\ missing = []).
Proof.
  unfold phrase_coverage. cbn [fst snd].
  split; [intros p; rewrite filter_In; reflexivity|].
  split.
  { intros p. rewrite filter_In, negb_true_iff. reflexivity. }
  split; [apply filter_sublist_bool|].
  split; [apply filter_sublist_bool|].
  split; [apply filter_complement_length|].
  split; [reflexivity|].
  split; [apply ratio_bounds, filter_length_le|].
  split; [apply ratio_bounds, filter_length_le|].
  intros Hshort.
  assert (Hnone : job_phrases job_text = []).
  { unfold job_phrases, extract_phrases, candidate_phrases.
    rewrite ngrams_short by lia. reflexivity. }
  rewrite Hnone. auto.
Qed.

(** ** The rerank within the cap *)

Lemma rerank_within_cap (cap : Z) (l : list string) :
  (forall a, (Z.of_nat (anchor_count a l) <= cap)%Z) ->
  rerank_phrases_diverse l cap = l.
Proof.
  unfold rerank_phrases_diverse. fold (rerank_state cap l).
  induction l as [|p l IH] using rev_ind; intros Hcap; [reflexivity|].
  rewrite rerank_state_snoc.
  assert (Hl : forall a, (Z.of_nat (anchor_count a l) <= cap)%Z).
  { intros a. specialize (Hcap a). rewrite anchor_count_snoc in Hcap. lia. }
  specialize (IH Hl).
  destruct (rerank_inv_holds cap l) as (Hcounts & _ & _).
  destruct (rerank_state cap l) as [counts out]. cbn [fst snd] in *.
  subst out. unfold rerank_step. rewrite Hcounts.
  specialize (Hcap (anchor p)). rewrite anchor_count_snoc in Hcap.
  rewrite String.eqb_refl in Hcap.
  destruct (Z.leb_spec (Z.of_nat (anchor_count (anchor p) l + 1)) cap);
    [reflexivity|lia].
Qed.

(** X11: the rerank leaves unchanged a list in which no anchor occurs more
    often than the cap, and it is idempotent: reranking its own output with
    the same cap changes nothing. *)
Theorem rerank_idempotent (phrases : list string) (cap : Z) :
  rerank_phrases_diverse (rerank_phrases_diverse phrases cap) cap =
  rerank_phrases_diverse phrases cap /\
  ((forall a, (Z.of_nat (anchor_count a phrases) <= cap)%Z) ->
   rerank_phrases_diverse phrases cap = phrases).
Proof.
  split; [|apply rerank_within_cap].
  destruct (rerank_phrases_diverse phrases cap) as [|p out] eqn:Hout;
    [reflexivity|].
  rewrite <- Hout. apply rerank_within_cap. intros a.
  rewrite rerank_count_min.
  assert (Hpos : 1 <= anchor_count (anchor p) (rerank_phrases_diverse phrases cap))
    by (apply anchor_count_pos; rewrite Hout; left; reflexivity).
  rewrite rerank_count_min in Hpos. lia.
Qed.

(** ** The bullet rewrite *)

Lemma injectable_keyword_word (kw : string) :
  in_list (lower kw) INJECTABLE_KEYWORDS = true ->
  no_space kw = true /\ kw <> "".
Proof.
  intros Hinj. apply in_list_In in Hinj.
  assert (Hlow : no_space (lower kw) = true /\ lower kw <> "").
  { unfold INJECTABLE_KEYWORDS in Hinj. simpl in Hinj.
    repeat (destruct Hinj as [<-|Hinj]; [split; [reflexivity|discriminate]|]).
    destruct Hinj. }
  destruct Hlow as [Hns Hne]. rewrite no_space_lower in Hns.
  split; [exact Hns|]. intros ->. apply Hne. reflexivity.
Qed.

Lemma focus_suggestion_differs (b : string) (target_keywords : list string)
    (kw : string) :
  select_kw b target_keywords = Some kw ->
  tighten b +:+ " (Focus: " +:+ kw +:+ ".)" <> b.
Proof.
  intros Hsel Heq.
  apply select_kw_absent in Hsel as (Habs & Hinj & _).
  destruct (injectable_keyword_word kw Hinj) as [Hns Hne].
  pose proof (normalize_keeps_word kw Hns Hne
                (tighten b +:+ " (Focus: ") ".)") as Hin.
  rewrite str_app_assoc, Heq in Hin. congruence.
Qed.

(** X12: when the injection loop selects a keyword outside the tool subset
    for a bullet of at least 20 characters, an edit is always emitted; its
    suggestion is the tightened bullet followed by "(Focus: KEYWORD.)" and
    it does not ask for confirmation. *)
Theorem focus_mention_emitted (bullet : string)
    (target_keywords : list string) (kw : string) :
  20 <= String.length (strip bullet) ->
  select_kw (strip bullet) target_keywords = Some kw ->
  in_list (lower kw) TOOL_KEYWORDS = false ->
  safe_rewrite_bullet bullet target_keywords =
  Some {| target := "bullet";
          original := strip bullet;
          suggestion := tighten (strip bullet) +:+ " (Focus: " +:+ kw +:+ ".)";
          rationale := focus_rationale kw;
          needs_confirmation := false |}.
Proof.
  intros Hlen Hsel Htool. unfold safe_rewrite_bullet.
  replace (is_empty (strip bullet)) with false
    by (destruct (strip bullet); [simpl in Hlen; lia|reflexivity]).
  replace (String.length (strip bullet) <? 20) with false
    by (symmetry; apply Nat.ltb_ge; exact Hlen).
  cbn [orb]. rewrite Hsel.
  destruct (select_kw_absent _ _ _ Hsel) as (_ & Hinj & _).
  destruct (injectable_keyword_word kw Hinj) as [_ Hne].
  replace (is_empty kw) with false by (destruct kw; [congruence|reflexivity]).
  rewrite Htool.
  destruct (String.eqb_spec
              (tighten (strip bullet) +:+ " (Focus: " +:+ kw +:+ ".)")
              (strip bullet)) as [Heq|_]; [|reflexivity].
  exfalso. exact (focus_suggestion_differs _ _ _ Hsel Heq).
Qed.

Lemma focus_mention_emitted_witness :
  safe_rewrite_bullet
    "  Resolved printer and network tickets for 200 users  "
    [ "python in anger"; "Automation"; "sql" ] =
  Some {| target := "bullet";
          original := "Resolved printer and network tickets for 200 users";
          suggestion :=
            "Resolved printer and network tickets for 200 users (Focus: Automation.)";
          rationale :=
            "Tightened wording for clarity. Added focus keyword 'Automation' to better match the posting.";
          needs_confirmation := false |}.
Proof.
  apply (focus_mention_emitted
           "  Resolved printer and network tickets for 200 users  "
           [ "python in anger"; "Automation"; "sql" ] "Automation").
  - vm_compute. lia.
  - vm_compute. reflexivity.
  - vm_compute. reflexivity.
Defined.

(** X13: every edit that [safe_rewrite_bullet] emits has target "bullet",
    quotes the stripped bullet as its original, which has at least 20
    characters, and proposes a suggestion that differs from the original and
    begins with the tightened bullet. *)
Theorem emitted_edit_shape (bullet : string) (target_keywords : list string)
    (e : SuggestedEdit) :
  safe_rewrite_bullet bullet target_keywords = Some e ->
  target e = "bullet" /\
  original e = strip bullet /\
  20 <= String.length (original e) /\
  suggestion e <> original e /\
  exists tail, suggestion e = tighten (strip bullet) +:+ tail.
Proof.
  unfold safe_rewrite_bullet.
  destruct (is_empty (strip bullet)); [discriminate|]. cbn [orb].
  destruct (Nat.ltb_spec (String.length (strip bullet)) 20) as [|Hlen];
    [discriminate|].
  set (tightened := tighten (strip bullet)).
  assert (Hshape : forall sug nc rat,
    (exists tail, sug = tightened +:+ tail) ->
    (if String.eqb sug (strip bullet) then None
     else Some {| target := "bullet"; original := strip bullet;
                  suggestion := sug; rationale := rat;
                  needs_confirmation := nc |}) = Some e ->
    target e = "bullet" /\ original e = strip bullet /\
    20 <= String.length (original e) /\ suggestion e <> original e /\
    exists tail, suggestion e = tightened +:+ tail).
  { intros sug nc rat Htail.
    destruct (String.eqb_spec sug (strip bullet)) as [|Hne]; [discriminate|].
    intros [= <-]. simpl. auto. }
  destruct (select_kw (strip bullet) target_keywords) as [kw|].
  - destruct (is_empty kw).
    + apply Hshape. exists "". symmetry. apply str_app_nil_r.
    + destruct (in_list (lower kw) TOOL_KEYWORDS); apply Hshape; eauto.
  - apply Hshape. exists "". symmetry. apply str_app_nil_r.
Qed.

Lemma emitted_edit_shape_witness :
  exists e,
    safe_rewrite_bullet "I just fixed really many laptops" [] = Some e /\
    target e = "bullet" /\
    original e = strip "I just fixed really many laptops" /\
    20 <= String.length (original e) /\
    suggestion e <> original e /\
    exists tail,
      suggestion e = tighten (strip "I just fixed really many laptops") +:+ tail.
Proof.
  eexists. split; [vm_compute; reflexivity|].
  apply (emitted_edit_shape "I just fixed really many laptops" []).
  vm_compute. reflexivity.
Defined.

Lemma sub_fillers_from_length (skip : nat) (prev : option ascii) (s : string) :
  String.length (sub_fillers_from skip prev s) <= String.length s.
Proof.
  revert skip prev. induction s as [|c s IH]; intros skip prev;
    [simpl; lia|].
  cbn [sub_fillers_from].
  destruct skip as [|k];
    [|specialize (IH k (Some c)); cbn [String.length]; lia].
  destruct (match_filler_here FILLER_WORDS prev (String c s)) as [[|k]|];
    cbn [String.length].
  - specialize (IH 0 (Some c)). lia.
  - specialize (IH k (Some c)). lia.
  - specialize (IH 0 (Some c)). lia.
Qed.

Lemma lstrip_length (s : string) : String.length (lstrip s) <= String.length s.
Proof.
  induction s as [|c s IH]; simpl; [lia|].
  destruct (isspace c); simpl; lia.
Qed.

Lemma rstrip_length (s : string) : String.length (rstrip s) <= String.length s.
Proof.
  induction s as [|c s IH]; simpl; [lia|].
  destruct (isspace c && is_empty (rstrip s)); simpl; lia.
Qed.

Lemma sub_ws2_from_length (b : bool) (s : string) :
  String.length (sub_ws2_from b s) <= String.length s.
Proof.
  revert b. induction s as [|c s IH]; intros b; simpl; [lia|].
  destruct (isspace c); [destruct b|].
  - specialize (IH true). lia.
  - destruct (head_char s) as [c'|]; [destruct (isspace c')|]; simpl.
    + specialize (IH true). lia.
    + specialize (IH false). lia.
    + specialize (IH false). lia.
  - simpl. specialize (IH false). lia.
Qed.

Lemma sub_ws2_from_starts (b : bool) (s : string) :
  starts_with_space s = false ->
  starts_with_space (sub_ws2_from b s) = false.
Proof.
  destruct s as [|c s]; [reflexivity|].
  unfold starts_with_space. cbn [head_char sub_ws2_from].
  intros Hc. rewrite Hc. exact Hc.
Qed.

Lemma sub_ws2_from_no_double (b : bool) (s : string) :
  no_double_space (sub_ws2_from b s) = true /\
  (b = true -> starts_with_space (sub_ws2_from b s) = false).
Proof.
  revert b. induction s as [|c s IH]; intros b; [simpl; auto|].
  cbn [sub_ws2_from].
  destruct (isspace c) eqn:Hc; [destruct b|].
  - apply IH.
  - split; [|discriminate].
    destruct (head_char s) as [c'|] eqn:Hhead; [destruct (isspace c') eqn:Hc'|].
    + destruct (IH true) as [Hnd Hst]. cbn [no_double_space].
      rewrite Hnd, (Hst eq_refl), andb_false_r. reflexivity.
    + destruct (IH false) as [Hnd _]. cbn [no_double_space].
      rewrite Hnd, sub_ws2_from_starts, andb_false_r; [reflexivity|].
      unfold starts_with_space. rewrite Hhead. exact Hc'.
    + destruct s; [|discriminate]. simpl. rewrite andb_false_r. reflexivity.
  - split.
    + cbn [no_double_space]. rewrite Hc. cbn [andb negb]. apply IH.
    + intros _. unfold starts_with_space. cbn [head_char]. exact Hc.
Qed.

(** X14: tightening never lengthens a bullet, and the tightened text never
    holds two whitespace characters in a row. *)
Theorem tighten_shortens_and_collapses (b : string) :
  String.length (tighten b) <= String.length b /\
  no_double_space (tighten b) = true.
Proof.
  unfold tighten, sub_ws2, strip, sub_fillers. split.
  - etransitivity; [apply sub_ws2_from_length|].
    etransitivity; [apply rstrip_length|].
    etransitivity; [apply lstrip_length|].
    apply sub_fillers_from_length.
  - apply sub_ws2_from_no_double.
Qed.

Example tighten_example :
  tighten "I JUST   handled really, very	many tickets" =
  "I handled , many tickets".
Proof. vm_compute. reflexivity. Qed.

(** ** Bullet discovery *)


Lemma rstrip_empty_lstrip (s : string) : rstrip s = "" -> lstrip s = "".
Proof.
  induction s as [|c s IH]; simpl; [reflexivity|].
  destruct (isspace c); simpl; [|discriminate].
  destruct (rstrip s); simpl; [auto|discriminate].
Qed.


Lemma rstrip_tail_fixed (c : ascii) (s : string) :
  rstrip (String c s) = String c s -> rstrip s = s.
Proof.
  simpl. destruct (isspace c && is_empty (rstrip s)); [discriminate|].
  intros [= Heq]. exact Heq.
Qed.






(** ** The edits of a run *)




(** ** The report lists of a run *)

Lemma extract_keywords_length (text : string) (K : list string) :
  length (extract_keywords text K) <= length K.
Proof.
  apply submseteq_length, NoDup_submseteq.
  - rewrite extract_keywords_sorted_set. apply sorted_set_NoDup.
  - intros x Hx. apply list_elem_of_In. apply list_elem_of_In in Hx.
    apply extract_keywords_In in Hx. tauto.
Qed.

Lemma bank_lists_length (K : list string) (resume_text job_text : string) :
  length (bank_overlap K resume_text job_text) +
  length (bank_missing K resume_text job_text) <= length K.
Proof.
  rewrite <- length_app.
  apply submseteq_length, NoDup_submseteq.
  - apply NoDup_app. split; [apply sorted_set_NoDup|].
    split; [|apply sorted_set_NoDup].
    intros x. rewrite elem_of_bank_overlap, elem_of_bank_missing. tauto.
  - intros x. rewrite elem_of_app, elem_of_bank_overlap, elem_of_bank_missing.
    intros Hx.
    assert (Hjob : x ∈ found_set job_text K) by tauto.
    unfold found_set in Hjob.
    rewrite elem_of_list_to_set, list_elem_of_In, filter_In in Hjob.
    apply list_elem_of_In. tauto.
Qed.

(** X17: the report lists of [run_agent] are the bank overlap and the bank
    missing keywords followed by tagged phrases: the first 10 covered
    phrases after the overlap, the first 15 uncovered phrases after the
    missing keywords, each prefixed with "[PHRASE] "; the two lists
    together never hold more than 50 entries. *)
Theorem run_agent_report_lists (resume_text job_text : string) :
  exists covered uncovered,
    overlap_keywords (run_agent_lists resume_text job_text) =
      bank_overlap TECH_KEYWORDS resume_text job_text ++
      map (fun p => "[PHRASE] " +:+ p) covered /\
    missing_keywords (run_agent_lists resume_text job_text) =
      bank_missing TECH_KEYWORDS resume_text job_text ++
      map (fun p => "[PHRASE] " +:+ p) uncovered /\
    length covered <= 10 /\ length uncovered <= 15 /\
    covered = take 10 (snd (fst (phrase_coverage resume_text job_text))) /\
    uncovered = take 15 (snd (phrase_coverage resume_text job_text)) /\
    length (overlap_keywords (run_agent_lists resume_text job_text)) +
    length (missing_keywords (run_agent_lists resume_text job_text)) <= 50.
Proof.
  pose proof (bank_lists_length TECH_KEYWORDS resume_text job_text) as Hbank.
  change (length TECH_KEYWORDS) with 25 in Hbank.
  unfold run_agent_lists.
  destruct (phrase_coverage resume_text job_text) as [[cov po] pm].
  cbn [fst snd overlap_keywords missing_keywords].
  assert (Hslice : forall (l : list string) (k : Z),
             (0 <= k)%Z -> py_slice l 0 k = take (Z.to_nat k) l).
  { intros l k Hk. unfold py_slice, py_index. rewrite Z.ltb_irrefl.
    destruct (Z.ltb_spec k 0) as [|_]; [lia|].
    replace (Z.to_nat (Z.min 0 (Z.of_nat (length l)))) with 0 by lia.
    rewrite drop_0.
    destruct (Z.le_gt_cases k (Z.of_nat (length l))).
    - f_equal. lia.
    - rewrite !take_ge by lia. reflexivity. }
  exists (take 10 po), (take 15 pm).
  rewrite (Hslice po 10%Z), (Hslice pm 15%Z) by lia.
  change (Z.to_nat 10) with 10. change (Z.to_nat 15) with 15.
  split; [reflexivity|]. split; [reflexivity|].
  rewrite !length_app, !length_map, !length_take. repeat split; lia.
Qed.

(** ** Bank coverage *)

Lemma overlap_missing_lengths (K : list string) (resume_text job_text : string) :
  length (bank_overlap K resume_text job_text) +
  length (bank_missing K resume_text job_text) =
  length (extract_keywords job_text K).
Proof.
  rewrite <- length_app. apply Permutation_length.
  apply NoDup_Permutation.
  - apply NoDup_app. split; [apply sorted_set_NoDup|].
    split; [|apply sorted_set_NoDup].
    intros x. rewrite elem_of_bank_overlap, elem_of_bank_missing. tauto.
  - rewrite extract_keywords_sorted_set. apply sorted_set_NoDup.
  - intros x. rewrite elem_of_app, elem_of_bank_overlap, elem_of_bank_missing.
    rewrite extract_keywords_sorted_set, elem_of_sorted_set.
    destruct (decide (x ∈ found_set resume_text K)); tauto.
Qed.

(** X18: the bank coverage of [run_agent] is a fraction between 0 and 1; it
    is 0 when the posting holds no bank keyword, and when it holds some the
    coverage is 1 exactly when no bank keyword is missing. *)
Theorem bank_coverage_bounds (K : list string) (resume_text job_text : string) :
  Qle 0 (bank_coverage K resume_text job_text) /\
  Qle (bank_coverage K resume_text job_text) 1 /\
  (extract_keywords job_text K = [] ->
   bank_coverage K resume_text job_text = 0%Q) /\
  (extract_keywords job_text K <> [] ->
   (Qeq (bank_coverage K resume_text job_text) 1 <->
    bank_missing K resume_text job_text = [])).
Proof.
  unfold bank_coverage.
  pose proof (overlap_missing_lengths K resume_text job_text) as Hlen.
  split; [apply ratio_bounds; lia|]. split; [apply ratio_bounds; lia|]. split.
  - intros ->. reflexivity.
  - intros Hne.
    destruct (extract_keywords job_text K) as [|k ks]; [congruence|].
    cbn [length] in *. unfold ratio, Qeq. cbn [Qnum Qden].
    destruct (bank_missing K resume_text job_text) as [|m ms]; cbn [length] in *.
    + split; [reflexivity|]. intros _. lia.
    + split; [|discriminate]. intros Heq. lia.
Qed.

(** ** Paste-mode input *)



Example collect_pasted_input_example :
  collect_pasted_input [ "Summary"; ""; "- fixed laptops"; " "; ""; "next" ] =
  Some ("Summary" +:+ NEWLINE +:+ "- fixed laptops", [ "next" ]).
Proof. vm_compute. reflexivity. Qed.

(** ** Red flags written in any letter case *)

Lemma prefix_split (p s : string) :
  String.prefix p s = true -> exists r, s = p +:+ r.
Proof.
  revert s. induction p as [|a p IH]; intros s.
  - exists s. reflexivity.
  - destruct s as [|b s]; simpl; [discriminate|].
    destruct (ascii_dec a b) as [<-|_]; [|discriminate].
    intros Hp. destruct (IH s Hp) as [r ->]. exists r. reflexivity.
Qed.

Lemma contains_split (p s : string) :
  contains p s = true -> exists l r, s = l +:+ p +:+ r.
Proof.
  induction s as [|c s IH]; rewrite contains_unfold; intros Hc;
    apply orb_true_iff in Hc as [Hp|Hc]; try discriminate.
  - destruct (prefix_split _ _ Hp) as [r Hr]. exists "", r. exact Hr.
  - destruct (prefix_split _ _ Hp) as [r Hr]. exists "", r. exact Hr.
  - destruct (IH Hc) as (l & r & ->). exists (String c l), r. reflexivity.
Qed.

Lemma normalize_lower_first (text : string) :
  normalize (Some text) = strip (sub_ws (lower text)).
Proof.
  unfold normalize, sub_ws. rewrite lower_sub_ws_from, lower_strip.
  reflexivity.
Qed.

Lemma sub_ws_from_phrase (x : string) (b : bool) (r : string) :
  collapsed x = true -> rstrip x = x ->
  (b = true -> starts_with_space x = false) ->
  exists r', sub_ws_from b (x +:+ r) = x +:+ r'.
Proof.
  revert b. induction x as [|c x IH]; intros b Hcol Hr Hb.
  - exists (sub_ws_from b r). reflexivity.
  - pose proof (rstrip_tail_fixed _ _ Hr) as Hr'.
    cbn [collapsed] in Hcol. apply andb_true_iff in Hcol as [Hc Hcol].
    rewrite str_app_cons. cbn [sub_ws_from].
    destruct (isspace c) eqn:Hsp.
    + apply andb_true_iff in Hc as [Heq Hnext].
      apply Ascii.eqb_eq in Heq. apply negb_true_iff in Hnext. subst c.
      destruct b.
      * specialize (Hb eq_refl). discriminate.
      * destruct (IH true Hcol Hr' (fun _ => Hnext)) as [r' ->].
        exists r'. reflexivity.
    + destruct (IH false Hcol Hr') as [r' ->]; [discriminate|].
      exists r'. reflexivity.
Qed.

Section KeepPhrase.

(** A non-empty phrase [x] whose only whitespace is single inner spaces. *)
Variable x : string.
Hypothesis x_collapsed : collapsed x = true.
Hypothesis x_start : starts_with_space x = false.
Hypothesis x_end : rstrip x = x.
Hypothesis x_not_empty : x <> "".

Lemma sub_ws_keeps_phrase (b : bool) (l r : string) :
  exists l' r', sub_ws_from b (l +:+ x +:+ r) = l' +:+ x +:+ r'.
Proof.
  revert b. induction l as [|c l IH]; intros b.
  - destruct (sub_ws_from_phrase x b r x_collapsed x_end (fun _ => x_start))
      as [r' Hr'].
    exists "", r'. exact Hr'.
  - rewrite str_app_cons. cbn [sub_ws_from].
    destruct (isspace c); [destruct b|].
    + apply IH.
    + destruct (IH true) as (l' & r' & ->). exists (String " " l'), r'.
      reflexivity.
    + destruct (IH false) as (l' & r' & ->). exists (String c l'), r'.
      reflexivity.
Qed.

Lemma lstrip_keeps_phrase (l r : string) :
  exists l', lstrip (l +:+ x +:+ r) = l' +:+ x +:+ r.
Proof.
  induction l as [|c l IH].
  - exists "". change ("" +:+ x +:+ r) with (x +:+ r).
    apply lstrip_fixed.
    destruct x as [|c w]; [congruence|]. exact x_start.
  - rewrite str_app_cons. cbn [lstrip]. destruct (isspace c).
    + exact IH.
    + exists (String c l). reflexivity.
Qed.

Lemma rstrip_phrase (r : string) : exists r', rstrip (x +:+ r) = x +:+ r'.
Proof.
  clear x_collapsed x_start. revert x_end x_not_empty.
  induction x as [|c w IH]; intros Hend Hne; [congruence|].
  pose proof (rstrip_tail_fixed _ _ Hend) as Hw.
  destruct w as [|d w].
  - exists (rstrip r). change (String c "" +:+ r) with (String c r).
    cbn [rstrip] in *. destruct (isspace c); [discriminate|]. reflexivity.
  - destruct (IH Hw) as [r' Hr']; [discriminate|].
    exists r'. rewrite str_app_cons. cbn [rstrip]. rewrite Hr'.
    rewrite andb_false_r. reflexivity.
Qed.

Lemma rstrip_keeps_phrase (l r : string) :
  exists r', rstrip (l +:+ x +:+ r) = l +:+ x +:+ r'.
Proof.
  induction l as [|c l IH].
  - apply rstrip_phrase.
  - destruct IH as [r' Hr']. exists r'.
    rewrite str_app_cons. cbn [rstrip]. rewrite Hr'.
    replace (is_empty (l +:+ x +:+ r')) with false.
    + rewrite andb_false_r. reflexivity.
    + destruct l; [|reflexivity].
      destruct x; [congruence|reflexivity].
Qed.

Lemma strip_sub_ws_keeps_phrase (l r : string) :
  contains x (strip (sub_ws (l +:+ x +:+ r))) = true.
Proof.
  unfold sub_ws, strip.
  destruct (sub_ws_keeps_phrase false l r) as (l1 & r1 & ->).
  destruct (lstrip_keeps_phrase l1 r1) as (l2 & ->).
  destruct (rstrip_keeps_phrase l2 r1) as (r2 & ->).
  apply contains_infix.
Qed.

End KeepPhrase.

Lemma red_flag_phrase_shape (p : string) :
  In p RED_FLAG_PHRASES ->
  collapsed p = true /\ starts_with_space p = false /\ rstrip p = p /\
  p <> "".
Proof.
  unfold RED_FLAG_PHRASES. simpl.
  intros Hin.
  repeat (destruct Hin as [<-|Hin];
          [repeat split; first [reflexivity | discriminate]|]).
  destruct Hin.
Qed.

(** X20: a red-flag phrase that occurs in the posting as written, in any
    letter case, is always reported: if the lower-cased posting contains
    the phrase, [find_red_flags] lists it. *)
Theorem red_flag_in_any_case_reported (job_text p : string) :
  In p RED_FLAG_PHRASES ->
  contains p (lower job_text) = true ->
  In p (find_red_flags job_text).
Proof.
  intros Hbank Hin.
  destruct (red_flag_phrase_shape p Hbank) as (Hcol & Hstart & Hend & Hne).
  destruct (contains_split _ _ Hin) as (l & r & Hsplit).
  unfold find_red_flags. apply filter_In. split; [exact Hbank|].
  rewrite normalize_lower_first, Hsplit.
  exact (strip_sub_ws_keeps_phrase p Hcol Hstart Hend Hne l r).
Qed.

Lemma red_flag_in_any_case_reported_witness :
  In "wire transfer"
     (find_red_flags "URGENT:	send a Wire Transfer today, KINDLY").
Proof.
  apply red_flag_in_any_case_reported.
  - vm_compute. tauto.
  - vm_compute. reflexivity.
Defined.

(** ** Word-boundary search *)

Lemma match_literal_last (k s : string) (prev prev' : option ascii)
    (rest : string) :
  match_literal Ascii.eqb k s prev = Some (prev', rest) ->
  prev' = last_from prev k.
Proof.
  revert s prev. induction k as [|a k IH]; intros s prev; simpl.
  - intros [= <- _]. reflexivity.
  - destruct s as [|b s]; [discriminate|].
    destruct (Ascii.eqb_spec a b) as [<-|_]; [|discriminate].
    apply IH.
Qed.

Lemma match_literal_app (k r : string) (prev : option ascii) :
  match_literal Ascii.eqb k (k +:+ r) prev = Some (last_from prev k, r).
Proof.
  revert prev. induction k as [|a k IH]; intros prev; [reflexivity|].
  rewrite str_app_cons. simpl. rewrite Ascii.eqb_refl. apply IH.
Qed.

Lemma last_from_word (k : string) (prev : option ascii) :
  k <> "" -> last_from prev k = last_from None k.
Proof. destruct k; [congruence|reflexivity]. Qed.

Lemma head_char_app (k r : string) :
  k <> "" -> head_char (k +:+ r) = head_char k.
Proof. destruct k; [congruence|reflexivity]. Qed.

Section StandaloneWord.

(** A keyword that begins and ends with a word character. *)
Variable k : string.
Hypothesis k_head : word_at (head_char k) = true.
Hypothesis k_last : word_at (last_from None k) = true.

Lemma k_not_empty : k <> "".
Proof using k_head. intros Hk. rewrite Hk in k_head. discriminate. Qed.

Lemma match_word_here_standalone (prev : option ascii) (r : string) :
  word_at prev = false -> word_at (head_char r) = false ->
  match_word_here Ascii.eqb k prev (k +:+ r) = Some r.
Proof using k_head k_last.
  intros Hprev Hr. unfold match_word_here, at_boundary.
  rewrite (head_char_app k r k_not_empty), Hprev, k_head. cbn [xorb].
  rewrite match_literal_app, (last_from_word k prev k_not_empty), k_last, Hr.
  reflexivity.
Qed.

Lemma search_word_from_found (l r : string) (prev : option ascii) :
  word_at (last_from prev l) = false -> word_at (head_char r) = false ->
  search_word_from k prev (l +:+ k +:+ r) = true.
Proof using k_head k_last.
  revert prev. induction l as [|c l IH]; intros prev Hl Hr.
  - change ("" +:+ k +:+ r) with (k +:+ r).
    destruct (k +:+ r) eqn:Hkr; cbn [search_word_from]; rewrite <- Hkr;
      rewrite (match_word_here_standalone prev r Hl Hr); reflexivity.
  - rewrite str_app_cons. cbn [search_word_from].
    destruct (match_word_here Ascii.eqb k prev _); [reflexivity|].
    apply IH; assumption.
Qed.

Lemma search_word_from_occurrence (s : string) (prev : option ascii) :
  search_word_from k prev s = true ->
  exists l r,
    s = l +:+ k +:+ r /\
    word_at (last_from prev l) = false /\ word_at (head_char r) = false.
Proof using k_head k_last.
  assert (Hhere : forall prev s rest,
            match_word_here Ascii.eqb k prev s = Some rest ->
            s = k +:+ rest /\ word_at prev = false /\
            word_at (head_char rest) = false).
  { intros p s0 rest. unfold match_word_here, at_boundary.
    destruct (xorb (word_at p) (word_at (head_char s0))) eqn:Hb1;
      [|discriminate].
    destruct (match_literal Ascii.eqb k s0 p) as [[p' rest']|] eqn:Hm;
      [|discriminate].
    destruct (xorb (word_at p') (word_at (head_char rest'))) eqn:Hb2;
      [|discriminate].
    intros [= <-].
    pose proof (match_literal_prefix _ _ _ _ _ Hm) as Hs0.
    pose proof (match_literal_last _ _ _ _ _ Hm) as Hp'.
    rewrite (last_from_word k p k_not_empty) in Hp'.
    rewrite Hp', k_last in Hb2.
    rewrite Hs0, (head_char_app k rest' k_not_empty), k_head in Hb1.
    split; [exact Hs0|]. split.
    - destruct (word_at p); [discriminate|reflexivity].
    - destruct (word_at (head_char rest')); [discriminate|reflexivity]. }
  revert prev. induction s as [|c s IH]; intros prev;
    cbn [search_word_from];
    destruct (match_word_here Ascii.eqb k prev _) as [rest|] eqn:Hm.
  - intros _. destruct (Hhere _ _ _ Hm) as (Hs & Hp & Hr).
    exists "", rest. auto.
  - discriminate.
  - intros _. destruct (Hhere _ _ _ Hm) as (Hs & Hp & Hr).
    exists "", rest. auto.
  - intros Hs. destruct (IH _ Hs) as (l & r & -> & Hl & Hr).
    exists (String c l), r. auto.
Qed.

End StandaloneWord.

(** X21: for a keyword that begins and ends with a word character, the
    word-boundary search of [extract_keywords] succeeds exactly when the
    keyword occurs in the text with no word character directly before it
    and none directly after it; an occurrence inside a longer word does not
    count. *)
Theorem search_word_standalone (k t : string) :
  word_at (head_char k) = true ->
  word_at (last_from None k) = true ->
  (search_word k t = true <->
   exists l r,
     t = l +:+ k +:+ r /\
     word_at (last_from None l) = false /\ word_at (head_char r) = false).
Proof.
  intros Hhead Hlast. unfold search_word. split.
  - apply search_word_from_occurrence; assumption.
  - intros (l & r & -> & Hl & Hr).
    apply search_word_from_found; assumption.
Qed.

Lemma search_word_standalone_witness :
  search_word "sql" "mysql, sql-server and nosql" = true <->
  exists l r,
    "mysql, sql-server and nosql" = l +:+ "sql" +:+ r /\
    word_at (last_from None l) = false /\ word_at (head_char r) = false.
Proof.
  apply (search_word_standalone "sql" "mysql, sql-server and nosql");
    vm_compute; reflexivity.
Defined.

Example search_word_inside_word :
  search_word "sql" "mysql and nosql" = false /\
  contains "sql" "mysql and nosql" = true.
Proof. split; vm_compute; reflexivity. Qed.

(** ** Input statistics *)

Lemma runs_from_count (P : ascii -> bool) (s cur : string) :
  2 * length (runs_from P cur s) <=
  String.length s + 1 + (if is_empty cur then 0 else 1).
Proof.
  revert cur. induction s as [|c s IH]; intros cur; cbn [runs_from].
  - unfold flush. destruct (is_empty cur); simpl; lia.
  - destruct (P c).
    + specialize (IH (cur +:+ String c "")).
      rewrite is_empty_app_char in IH. cbn [String.length]. lia.
    + specialize (IH ""). rewrite length_app. unfold flush.
      destruct (is_empty cur); cbn [String.length length is_empty] in *; lia.
Qed.

Lemma substring_prefix (n : nat) (s : string) :
  String.length (String.substring 0 n s) = Nat.min n (String.length s) /\
  exists rest, s = String.substring 0 n s +:+ rest.
Proof.
  revert s. induction n as [|n IH]; intros s.
  - destruct s; simpl; (split; [reflexivity|]); eexists; reflexivity.
  - destruct s as [|c s]; simpl.
    + split; [reflexivity|]. exists "". reflexivity.
    + destruct (IH s) as [Hlen [rest Hrest]]. split; [lia|].
      exists rest. rewrite str_app_cons, <- Hrest. reflexivity.
Qed.

(** X22: [input_stats] reports the length of the text, a word count of at
    most half that length rounded up, and as preview the first 200
    characters of the text, the whole text when it is no longer; a missing
    text counts as empty. *)
Theorem input_stats_bounds (label : string) (text : option string) :
  let t := match text with None => "" | Some t => t end in
  stats_label (input_stats label text) = label /\
  stats_chars (input_stats label text) = String.length t /\
  2 * stats_words (input_stats label text) <= String.length t + 1 /\
  String.length (stats_preview (input_stats label text)) =
    Nat.min 200 (String.length t) /\
  (exists rest, t = stats_preview (input_stats label text) +:+ rest) /\
  (String.length t <= 200 -> stats_preview (input_stats label text) = t).
Proof.
  cbv zeta. unfold input_stats.
  cbn [stats_label stats_chars stats_words stats_preview].
  set (t := match text with None => "" | Some t => t end).
  destruct (substring_prefix 200 t) as [Hlen [rest Hrest]].
  split; [reflexivity|]. split; [reflexivity|]. split.
  - pose proof (runs_from_count (fun c => negb (isspace c)) t "") as Hcount.
    cbn [is_empty] in Hcount. unfold split_ws. lia.
  - split; [exact Hlen|]. split; [exists rest; exact Hrest|].
    intros Hshort.
    assert (Hr : String.length rest = 0).
    { apply (f_equal String.length) in Hrest.
      assert (Happ : forall a b, String.length (a +:+ b) =
                                 String.length a + String.length b).
      { intros a b. induction a as [|c a IHa]; [reflexivity|].
        rewrite str_app_cons. simpl. rewrite IHa. reflexivity. }
      rewrite Happ, Hlen in Hrest. lia. }
    destruct rest; [|discriminate].
    rewrite str_app_nil_r in Hrest. symmetry. exact Hrest.
Qed.
